(** * k-means (Lloyd's algorithm) on Thrill: examples/k-means/k-means.hpp

    A shallow embedding of the header and the properties checked against it.

    - [double] is the kernel's IEEE-754 binary64 type [float]; comparisons
      and arithmetic are the primitive ones, so every definition evaluates.
    - [size_t] is a [Z] in [0, 2^64) with the wrap-around of unsigned
      arithmetic written out.
    - [std::vector<T>] and [DIA<T>] are [list T]: a DIA is the logical,
      global sequence of its items.
    - The [template <typename Point>] parameter is a type class. *)

From Stdlib Require Import ZArith List Lia Bool Floats Permutation.
Import ListNotations.

Local Open Scope Z_scope.

(** ** Machine integers *)

Definition size_t := Z.

Definition SIZE_MOD : Z := 2 ^ 64.

(** Unsigned 64-bit addition, as [a + b] on [size_t]. *)
Definition size_add (a b : size_t) : size_t := (a + b) mod SIZE_MOD.

(** [++i] on a [size_t]. *)
Definition size_incr (i : size_t) : size_t := size_add i 1.

(** [static_cast<double>(n)] for [n : size_t]: the nearest binary64 value,
    ties to even. *)
Definition size_to_double (n : size_t) : float :=
  SF2Prim (binary_normalize prec emax n 0 false).

(** ** Results of running code that can go wrong *)

(** [Undefined] is an unchecked [operator[]] read past the end of a
    [std::vector]: no diagnostic, nothing is reported to the caller.
    [AssertionFailed] is a failing [assert], which aborts the program. *)
Inductive outcome (A : Type) : Type :=
| Ret (a : A)
| Undefined
| AssertionFailed.

Arguments Ret {A} a.
Arguments Undefined {A}.
Arguments AssertionFailed {A}.

Definition bind {A B : Type} (m : outcome A) (k : A -> outcome B) : outcome B :=
  match m with
  | Ret a => k a
  | Undefined => Undefined
  | AssertionFailed => AssertionFailed
  end.

Notation "x <- m ;; k" := (bind m (fun x => k))
  (at level 61, m at next level, right associativity).

(** [Map] with a lambda that can go wrong: the lambda is applied to every
    item, in item order, and the first failure is the result. *)
Fixpoint mapM {A B : Type} (f : A -> outcome B) (l : list A) : outcome (list B) :=
  match l with
  | [] => Ret []
  | a :: l' => b <- f a ;; bs <- mapM f l' ;; Ret (b :: bs)
  end.

(** ** Reading the order of binary64 values *)

(** [a] is [Lt] or [Eq]: the left value is not above the right one. *)
Definition le_or_eq (c : comparison) : bool :=
  match c with Gt => false | _ => true end.

(** The comparison of [x] with [z] from those of [x] with [y] and of [y]
    with [z], when neither is [Gt]. *)
Definition comp_seq (a b : comparison) : comparison :=
  match a, b with Eq, Eq => Eq | _, _ => Lt end.

(** ** The Point concept *)

(** What [KMeansModel<Point>] and [KMeans<Point, _>] use of their template
    parameter: [p.DistanceSquare(q)], [p + q] and [p / s]. *)
Class PointOps (Point : Type) : Type := {
  DistanceSquare : Point -> Point -> float;
  point_add : Point -> Point -> Point;
  point_div : Point -> float -> Point
}.

(** Modelled from the spec: thrill/common/vector.hpp, the vector class
    behind [Point<D>] and [VPoint], is not under src/.  A point is an
    "ordered sequence of real numbers", here the [double] coordinates in
    order. *)
Definition VPoint := list float.

(** Modelled from the spec: the coordinate loop of the vector class's
    binary operators, for two points "of equal dimension" (on unequal
    dimensions, a usage error, the loop here stops at the shorter). *)
Fixpoint vec_zip_with (f : float -> float -> float) (a b : VPoint) : VPoint :=
  match a, b with
  | x :: a', y :: b' => f x y :: vec_zip_with f a' b'
  | _, _ => []
  end.

(** Modelled from the spec: the loop of the vector class's
    [DistanceSquare], adding the squared coordinate differences to [sum]
    from the first coordinate on. *)
Fixpoint vec_dist_loop (sum : float) (a b : VPoint) : float :=
  match a, b with
  | x :: a', y :: b' => vec_dist_loop (sum + (x - y) * (x - y))%float a' b'
  | _, _ => sum
  end.

(** Modelled from the spec: [DistanceSquare] of the vector class, the
    "squared Euclidean distance to another point of equal dimension". *)
Definition VPoint_DistanceSquare (a b : VPoint) : float :=
  vec_dist_loop 0%float a b.

(** Modelled from the spec: [operator+] of the vector class, the
    "addition" of two points. *)
Definition VPoint_add (a b : VPoint) : VPoint := vec_zip_with PrimFloat.add a b.

(** Modelled from the spec: [operator/] of the vector class, the "scalar
    division" of a point. *)
Definition VPoint_div (a : VPoint) (s : float) : VPoint :=
  map (fun x => (x / s)%float) a.

#[export] Instance VPoint_ops : PointOps VPoint := {
  DistanceSquare := VPoint_DistanceSquare;
  point_add := VPoint_add;
  point_div := VPoint_div
}.

(** ** The dataflow engine *)

(** Modelled from the spec: thrill/api, the DIA and its operations, is not
    under src/.  A DIA is the logical sequence of its items, whatever
    their partition. *)
Definition DIA (T : Type) : Type := list T.

(** Modelled from the spec: Cache "materializes a dataset"; its items are
    those of the input. *)
Definition Cache {T : Type} (d : DIA T) : DIA T := d.

(** Modelled from the spec: [Keep] of thrill/api lets a DIA be consumed
    once more; its items are unchanged. *)
Definition Keep {T : Type} (d : DIA T) : DIA T := d.

(** Modelled from the spec: [Collapse] of thrill/api folds the pending
    lambdas of a DIA into its type; its items are unchanged. *)
Definition Collapse {T : Type} (d : DIA T) : DIA T := d.

(** Modelled from the spec: AllGather "collects every element of a ...
    dataset and delivers the full collection". *)
Definition AllGather {T : Type} (d : DIA T) : list T := d.

(** Modelled from the spec: Map "applies fn independently to every
    element". *)
Definition Map {A B : Type} (f : A -> B) (d : DIA A) : DIA B := map f d.

(** Modelled from the spec: Sum is the "distributed sum reduction" of a
    DIA of reals, here in item order from 0. *)
Definition Sum (d : DIA float) : float := fold_left PrimFloat.add d 0%float.

(** Modelled from the spec: one step of one of the orders the contract of
    ReduceByKey allows (see [reduces_by_key]): the items are taken in
    item order, an item whose key is present is merged into the stored
    item, an item with a new key is appended. *)
Fixpoint reduce_insert {T : Type} (key : T -> size_t) (reduce : T -> T -> T)
    (x : T) (table : list T) : list T :=
  match table with
  | [] => [x]
  | y :: table' =>
      if key y =? key x then reduce y x :: table'
      else y :: reduce_insert key reduce x table'
  end.

(** Modelled from the spec: ReduceByKey "groups elements by key, applying
    combineFn pairwise in an arbitrary, associative order (including
    partial combination before data exchange); one output element per
    distinct key".  This function is the run of one such order: every key
    merged left to right in item order, the outputs in the order in which
    their keys first occur.  What holds of every order is stated over
    [reduces_by_key]. *)
Definition ReduceByKey {T : Type} (key : T -> size_t) (reduce : T -> T -> T)
    (d : DIA T) : DIA T :=
  fold_left (fun table x => reduce_insert key reduce x table) d [].

(** Any other order in which the engine may apply the reduce function to
    the items of one key: a binary tree with the items at its leaves. *)
Inductive merge_tree (T : Type) : Type :=
| Leaf (x : T)
| Node (l r : merge_tree T).

Arguments Leaf {T} x.
Arguments Node {T} l r.

Fixpoint merge {T : Type} (reduce : T -> T -> T) (t : merge_tree T) : T :=
  match t with
  | Leaf x => x
  | Node l r => reduce (merge reduce l) (merge reduce r)
  end.

Fixpoint leaves {T : Type} (t : merge_tree T) : list T :=
  match t with
  | Leaf x => [x]
  | Node l r => leaves l ++ leaves r
  end.

(** The merge order [t] with every item replaced by its image under [f]. *)
Fixpoint tree_map {A B : Type} (f : A -> B) (t : merge_tree A) : merge_tree B :=
  match t with
  | Leaf x => Leaf (f x)
  | Node l r => Node (tree_map f l) (tree_map f r)
  end.

(** Modelled from the spec: the contract of ReduceByKey, for every order
    the engine may take.  [out] holds "one output element per distinct
    key", in any order of the keys [ks]; the element of a key is the merge
    of the items of that key, each taken once, "applying combineFn
    pairwise in an arbitrary, associative order (including partial
    combination before data exchange)": some merge tree whose leaves are
    a permutation of those items. *)
Definition reduces_by_key {T : Type} (key : T -> size_t)
    (reduce : T -> T -> T) (d out : DIA T) : Prop :=
  exists (ks : list size_t) (trees : list (merge_tree T)),
    NoDup ks /\
    Forall2 (fun k t =>
               Permutation (leaves t) (filter (fun z => key z =? k) d))
      ks trees /\
    (forall z, In z d -> In (key z) ks) /\
    out = map (merge reduce) trees.

(** Two merge orders that differ only in which operand of a merge comes
    first. *)
Inductive mirrored {T : Type} : merge_tree T -> merge_tree T -> Prop :=
| mirrored_leaf (x : T) : mirrored (Leaf x) (Leaf x)
| mirrored_same (l r l' r' : merge_tree T) :
    mirrored l l' -> mirrored r r' -> mirrored (Node l r) (Node l' r')
| mirrored_swap (l r l' r' : merge_tree T) :
    mirrored l l' -> mirrored r r' -> mirrored (Node l r) (Node r' l').

(** What the table of [ReduceByKey] holds once the items [done] have been
    inserted: one entry per key seen, each the left-to-right merge of the
    items of its key. *)
Definition table_of {T : Type} (key : T -> size_t) (reduce : T -> T -> T)
    (table done : list T) : Prop :=
  NoDup (map key table) /\
  Forall (fun y => exists x g,
            filter (fun z => key z =? key y) done = x :: g /\
            y = fold_left reduce g x) table /\
  (forall z, In z done -> In (key z) (map key table)).

(** ** Records of the header *)

Section KMeans.

Context {Point : Type} {ops : PointOps Point}.

(** [template <typename Point> using PointClusterId = std::pair<Point, size_t>] *)
Definition PointClusterId : Type := Point * size_t.

(** [struct CentroidAccumulated { Point p; size_t count; }] *)
Record CentroidAccumulated : Type := mkCentroidAccumulated {
  p : Point;
  count : size_t
}.

(** [struct ClosestCentroid { size_t cluster_id; CentroidAccumulated center; }] *)
Record ClosestCentroid : Type := mkClosestCentroid {
  cluster_id : size_t;
  center : CentroidAccumulated
}.

(** [class KMeansModel]: the four private members, set by the constructor
    of lines 73-77; the projections are the accessors of lines 83-92. *)
Record KMeansModel : Type := mkKMeansModel {
  dimensions : size_t;
  num_clusters : size_t;
  iterations : size_t;
  centroids : list Point
}.

(** ** Classification (lines 100-150) *)

(** The [for] loop of [Classify(const Point&)], lines 103-109: [rest] are
    the centroids from index [i] on. *)
Fixpoint Classify_loop (pt : Point) (rest : list Point) (i : size_t)
    (min_dist : float) (closest_id : size_t) : float * size_t :=
  match rest with
  | [] => (min_dist, closest_id)
  | c :: rest' =>
      let dist := DistanceSquare pt c in
      if (dist <? min_dist)%float
      then Classify_loop pt rest' (size_incr i) dist i
      else Classify_loop pt rest' (size_incr i) min_dist closest_id
  end.

(** [size_t Classify(const Point& p) const]: [centroids_[0]] is read
    unchecked before the loop. *)
Definition Classify (m : KMeansModel) (pt : Point) : outcome size_t :=
  match centroids m with
  | [] => Undefined
  | c0 :: rest =>
      Ret (snd (Classify_loop pt rest 1 (DistanceSquare pt c0) 0))
  end.

(** The [for] loop of [ComputeCost(const Point&)], lines 134-139. *)
Fixpoint ComputeCost_loop (pt : Point) (rest : list Point) (min_dist : float)
    : float :=
  match rest with
  | [] => min_dist
  | c :: rest' =>
      let dist := DistanceSquare pt c in
      if (dist <? min_dist)%float
      then ComputeCost_loop pt rest' dist
      else ComputeCost_loop pt rest' min_dist
  end.

(** [double ComputeCost(const Point& p) const] *)
Definition ComputeCost (m : KMeansModel) (pt : Point) : outcome float :=
  match centroids m with
  | [] => Undefined
  | c0 :: rest => Ret (ComputeCost_loop pt rest (DistanceSquare pt c0))
  end.

(** [ComputeCost(const PointDIA& points)]: the per-point cost mapped over
    the DIA, then summed. *)
Definition ComputeCost_DIA (m : KMeansModel) (points : DIA Point)
    : outcome float :=
  costs <- mapM (ComputeCost m) points ;;
  Ret (Sum costs).

(** [Classify(const PointDIA& points)] *)
Definition Classify_DIA (m : KMeansModel) (points : DIA Point)
    : outcome (DIA size_t) :=
  mapM (Classify m) points.

(** [ClassifyPairs(const PointDIA& points)] *)
Definition ClassifyPairs (m : KMeansModel) (points : DIA Point)
    : outcome (DIA PointClusterId) :=
  mapM (fun pt => id <- Classify m pt ;; Ret (pt, id)) points.

(** ** The member functions as calls on an object *)












(** ** What the scan has established after the centroids [seen] *)

(** [closest_id] indexes [seen], [min_dist] is the distance to that
    centroid, no centroid of [seen] is strictly closer, every centroid
    before [closest_id] fails to be as close, and (NaN aside) [min_dist] is
    a lower bound of the distances. *)
Definition best_so_far (pt : Point) (seen : list Point) (min_dist : float)
    (closest_id : size_t) : Prop :=
  0 <= closest_id /\
  (exists c, nth_error seen (Z.to_nat closest_id) = Some c /\
             min_dist = DistanceSquare pt c) /\
  (forall j c, nth_error seen j = Some c ->
     (DistanceSquare pt c <? min_dist)%float = false) /\
  (forall j c, nth_error seen j = Some c -> Z.of_nat j < closest_id ->
     (DistanceSquare pt c <=? min_dist)%float = false) /\
  (forall c0, nth_error seen 0 = Some c0 ->
     is_nan (DistanceSquare pt c0) = false -> is_nan min_dist = false) /\
  (is_nan min_dist = false ->
   forall j c, nth_error seen j = Some c ->
     is_nan (DistanceSquare pt c) = false ->
     (min_dist <=? DistanceSquare pt c)%float = true).

(** ** Lloyd's algorithm (lines 171-229) *)

(** [Sample] is the engine's random draw; one run fixes its result.
    [NDEBUG] says whether [assert] is compiled out. *)
Variable Sample : DIA Point -> size_t -> DIA Point.
Variable NDEBUG : bool.

(** The [for] loop inside the assignment lambda, lines 196-202. *)
Fixpoint closest_loop (pt : Point) (rest : list Point) (i : size_t)
    (min_dist : float) (closest_id : size_t) : float * size_t :=
  match rest with
  | [] => (min_dist, closest_id)
  | c :: rest' =>
      let dist := DistanceSquare pt c in
      if (dist <? min_dist)%float
      then closest_loop pt rest' (size_incr i) dist i
      else closest_loop pt rest' (size_incr i) min_dist closest_id
  end.

(** The lambda given to [Map] at lines 191-206. *)
Definition assign_lambda (local_centroids : list Point) (pt : Point)
    : outcome ClosestCentroid :=
  match local_centroids with
  | [] => if NDEBUG then Undefined else AssertionFailed
  | c0 :: rest =>
      let closest_id :=
        snd (closest_loop pt rest 1 (DistanceSquare pt c0) 0) in
      Ret (mkClosestCentroid closest_id (mkCentroidAccumulated pt 1))
  end.

(** [pt] is assigned to cluster [k] under the centroids [local_centroids]. *)
Definition assigned_to (local_centroids : list Point) (k : size_t)
    (pt : Point) : bool :=
  match assign_lambda local_centroids pt with
  | Ret cc => cluster_id cc =? k
  | _ => false
  end.

(** The spec's arithmetic mean of a group of points: "component-wise
    point_sum / count", with the points added in item order. *)
Definition mean_of (group : list Point) : option Point :=
  match group with
  | [] => None
  | x :: g =>
      Some (point_div (fold_left point_add g x)
              (size_to_double (Z.of_nat (length group))))
  end.

(** The spec's arithmetic mean of a group of points, "component-wise
    point_sum / count", for any order of the additions: [c] is the sum of
    exactly the points of [group], each taken once and added pairwise in
    some order, divided by their number. *)
Definition is_mean_of (group : list Point) (c : Point) : Prop :=
  exists t : merge_tree Point,
    Permutation (leaves t) group /\
    c = point_div (merge point_add t)
          (size_to_double (Z.of_nat (length group))).

(** The key extractor of [ReduceByKey], line 212. *)
Definition key_lambda (cc : ClosestCentroid) : size_t := cluster_id cc.

(** The reduce function of [ReduceByKey], lines 213-219: the spec's
    [combine]. *)
Definition combine_lambda (a b : ClosestCentroid) : ClosestCentroid :=
  mkClosestCentroid (cluster_id a)
    (mkCentroidAccumulated
       (point_add (p (center a)) (p (center b)))
       (size_add (count (center a)) (count (center b)))).

(** The lambda given to [Map] at lines 220-222. *)
Definition mean_lambda (cc : ClosestCentroid) : Point :=
  point_div (p (center cc)) (size_to_double (count (center cc))).

(** The assignment step, lines 190-206. *)
Definition assign_step (points : DIA Point) (local_centroids : list Point)
    : outcome (DIA ClosestCentroid) :=
  mapM (assign_lambda local_centroids) (Keep points).

(** Lines 209-223. *)
Definition recompute_step (closest : DIA ClosestCentroid) : DIA Point :=
  Collapse (Map mean_lambda (ReduceByKey key_lambda combine_lambda closest)).

(** The variables the loop changes. *)
Record loop_state : Type := mkLoopState {
  iter : size_t;
  cur_centroids : DIA Point
}.

(** One pass through the loop body, lines 187-223, followed by [++iter]. *)
Definition loop_body (points : DIA Point) (s : loop_state)
    : outcome loop_state :=
  let local_centroids := AllGather (cur_centroids s) in
  closest <- assign_step points local_centroids ;;
  Ret (mkLoopState (size_incr (iter s)) (recompute_step closest)).

(** [for (size_t iter = 0; iter < iterations; ++iter)]: [None] when [fuel]
    passes through the loop run out before the guard is false. *)
Fixpoint for_loop (fuel : nat) (points : DIA Point) (iterations_ : size_t)
    (s : loop_state) : option (outcome loop_state) :=
  if iter s <? iterations_ then
    match fuel with
    | O => None
    | S fuel' =>
        match loop_body points s with
        | Ret s' => for_loop fuel' points iterations_ s'
        | Undefined => Some Undefined
        | AssertionFailed => Some AssertionFailed
        end
    end
  else Some (Ret s).

(** [auto KMeans(input_points, dimensions, num_clusters, iterations)] *)
Definition KMeans (fuel : nat) (input_points : DIA Point)
    (dimensions_ num_clusters_ iterations_ : size_t)
    : option (outcome KMeansModel) :=
  let points := Cache input_points in
  let centroids0 := Sample (Keep points) num_clusters_ in
  match for_loop fuel points iterations_ (mkLoopState 0 centroids0) with
  | None => None
  | Some r =>
      Some (s <- r ;;
            Ret (mkKMeansModel dimensions_ num_clusters_ iterations_
                   (AllGather (cur_centroids s))))
  end.

(** [n] passes through the loop body, one after the other. *)
Fixpoint rounds (n : nat) (points : DIA Point) (s : loop_state)
    : outcome loop_state :=
  match n with
  | O => Ret s
  | S n' => s' <- loop_body points s ;; rounds n' points s'
  end.

End KMeans.

Arguments CentroidAccumulated Point : clear implicits.
Arguments ClosestCentroid Point : clear implicits.
Arguments KMeansModel Point : clear implicits.
Arguments PointClusterId Point : clear implicits.

Arguments loop_state Point : clear implicits.

(** ** Runs on concrete data *)

(** A [Sample] that draws the first [k] items. *)
Definition Sample_first (d : DIA VPoint) (k : size_t) : DIA VPoint :=
  firstn (Z.to_nat k) d.

(** The four points of the spec's end-to-end scenario, the two sampled
    ones first. *)
Definition square_points : DIA VPoint :=
  [[0; 0]; [10; 0]; [0; 1]; [10; 1]]%float.

(** The spec's tie-break example: two centroids at the origin. *)
Definition tie_model : KMeansModel VPoint :=
  mkKMeansModel 2 2 0 [[0; 0]; [0; 0]]%float.

(** Three points on a line whose first two, the sampled centroids,
    coincide: cluster 1 receives no point. *)
Definition line_points : DIA VPoint := [[0]; [0]; [4]]%float.



(** Three records of cluster 0 whose point sums round: 2^53, 1 and 1. *)
Definition cc_big : ClosestCentroid VPoint :=
  mkClosestCentroid 0 (mkCentroidAccumulated [9007199254740992%float] 1).

Definition cc_one : ClosestCentroid VPoint :=
  mkClosestCentroid 0 (mkCentroidAccumulated [1%float] 1).

(** * Properties *)

(** ** The order of binary64 values *)

Module Double.

Lemma SFcompare_refl x : x <> S754_nan -> SFcompare x x = Some Eq.
Proof.
  destruct x as [s| s| |s m e]; simpl; try congruence; intros _.
  - destruct s; reflexivity.
  - destruct s; rewrite Z.compare_refl, Pos.compare_cont_refl; reflexivity.
Qed.

Lemma SFcompare_none x y :
  SFcompare x y = None <-> x = S754_nan \/ y = S754_nan.
Proof.
  destruct x as [s| s| |s m e], y as [s'| s'| |s' m' e']; simpl;
    split; intros H; try discriminate; auto;
    destruct H; discriminate.
Qed.

Lemma SFcompare_antisym x y c :
  SFcompare x y = Some c -> SFcompare y x = Some (CompOpp c).
Proof.
  destruct x as [s| s| |s m e], y as [s'| s'| |s' m' e']; simpl;
    try discriminate; intros [= <-]; f_equal.
  all: rewrite ?Pos.compare_cont_spec; simpl.
  all: try rewrite (Z.compare_antisym e e'), (Pos.compare_antisym m m').
  all: try destruct s; try destruct s'; simpl; try reflexivity.
  all: destruct (e ?= e'); simpl; try reflexivity;
      destruct (m ?= m')%positive; reflexivity.
Qed.

Lemma SFcompare_trans x y z a b :
  SFcompare x y = Some a -> SFcompare y z = Some b ->
  le_or_eq a = true -> le_or_eq b = true ->
  SFcompare x z = Some (comp_seq a b).
Proof.
  destruct x as [s| s| |s m e], y as [s'| s'| |s' m' e'],
    z as [s''| s''| |s'' m'' e'']; simpl; try discriminate;
    try (destruct s); try (destruct s'); try (destruct s'');
    intros [= <-] [= <-]; simpl; try discriminate; try reflexivity.
  all: rewrite ?Pos.compare_cont_spec; simpl.
  all: repeat match goal with
       | |- context [ (?a ?= ?b)%Z ] => destruct (Z.compare_spec a b)
       end; simpl; try discriminate; try reflexivity; try lia.
  all: repeat match goal with
       | |- context [ (?a ?= ?b)%positive ] =>
           destruct (Pos.compare_spec a b)
       end; simpl; try discriminate; try reflexivity; try lia.
Qed.

(** The three comparisons of the header's [double]s, read on the
    specification side. *)
Ltac to_spec :=
  unfold is_nan in *;
  rewrite ?ltb_spec, ?leb_spec, ?eqb_spec in *;
  unfold SFltb, SFleb, SFeqb in *.

Lemma is_nan_spec x : is_nan x = true <-> Prim2SF x = S754_nan.
Proof.
  to_spec. split.
  - intros H. remember (Prim2SF x) as sx eqn:E.
    destruct sx as [s| s| |s m e]; try reflexivity; exfalso;
      rewrite SFcompare_refl in H by discriminate; discriminate.
  - intros ->. reflexivity.
Qed.

Lemma not_nan_spec x : is_nan x = false <-> Prim2SF x <> S754_nan.
Proof.
  rewrite <- is_nan_spec. destruct (is_nan x); split; congruence.
Qed.

Lemma ltb_trans a b c :
  (a <? b)%float = true -> (b <? c)%float = true -> (a <? c)%float = true.
Proof.
  to_spec.
  destruct (SFcompare (Prim2SF a) (Prim2SF b)) as [[]|] eqn:E1; try discriminate.
  destruct (SFcompare (Prim2SF b) (Prim2SF c)) as [[]|] eqn:E2; try discriminate.
  rewrite (SFcompare_trans _ _ _ _ _ E1 E2); reflexivity.
Qed.

Lemma leb_ltb_trans a b c :
  (a <=? b)%float = true -> (b <? c)%float = true -> (a <? c)%float = true.
Proof.
  to_spec.
  destruct (SFcompare (Prim2SF a) (Prim2SF b)) as [[]|] eqn:E1; try discriminate;
  destruct (SFcompare (Prim2SF b) (Prim2SF c)) as [[]|] eqn:E2; try discriminate;
  rewrite (SFcompare_trans _ _ _ _ _ E1 E2); reflexivity.
Qed.

Lemma ltb_leb_trans a b c :
  (a <? b)%float = true -> (b <=? c)%float = true -> (a <=? c)%float = true.
Proof.
  to_spec.
  destruct (SFcompare (Prim2SF a) (Prim2SF b)) as [[]|] eqn:E1; try discriminate;
  destruct (SFcompare (Prim2SF b) (Prim2SF c)) as [[]|] eqn:E2; try discriminate;
  rewrite (SFcompare_trans _ _ _ _ _ E1 E2); reflexivity.
Qed.

Lemma ltb_not_nan a b : (a <? b)%float = true -> is_nan a = false.
Proof.
  intros H. apply not_nan_spec. intros N. revert H. to_spec.
  rewrite N. simpl. discriminate.
Qed.

Lemma ltb_not_nan_r a b : (a <? b)%float = true -> is_nan b = false.
Proof.
  intros H. apply not_nan_spec. intros N. revert H. to_spec.
  rewrite N. destruct (Prim2SF a); simpl; discriminate.
Qed.

Lemma ltb_irrefl a : (a <? a)%float = false.
Proof.
  destruct (is_nan a) eqn:N.
  - apply is_nan_spec in N. to_spec. rewrite N. reflexivity.
  - apply not_nan_spec in N. to_spec.
    rewrite SFcompare_refl by assumption. reflexivity.
Qed.

Lemma leb_refl a : is_nan a = false -> (a <=? a)%float = true.
Proof.
  intros H. apply not_nan_spec in H. to_spec.
  rewrite SFcompare_refl by assumption. reflexivity.
Qed.

Lemma not_ltb_leb a b :
  is_nan a = false -> is_nan b = false ->
  (a <? b)%float = false -> (b <=? a)%float = true.
Proof.
  intros Ha Hb. apply not_nan_spec in Ha, Hb. to_spec.
  destruct (SFcompare (Prim2SF a) (Prim2SF b)) as [c|] eqn:E.
  - rewrite (SFcompare_antisym _ _ _ E). destruct c; simpl; congruence.
  - apply SFcompare_none in E. tauto.
Qed.

Lemma add_comm a b : (a + b)%float = (b + a)%float.
Proof.
  apply Prim2SF_inj. rewrite !add_spec. unfold SF64add, SFadd.
  destruct (Prim2SF a) as [s| s| |s m e], (Prim2SF b) as [s'| s'| |s' m' e'];
    try reflexivity; try (destruct s, s'; reflexivity).
  rewrite (Z.min_comm e' e), Z.add_comm. reflexivity.
Qed.

End Double.

(** ** The nearest-centroid scan *)

Section Scan.

Context {Point : Type} {ops : PointOps Point}.

Lemma size_incr_exact i : 0 <= i -> i + 1 < SIZE_MOD -> size_incr i = i + 1.
Proof.
  intros H0 H1. unfold size_incr, size_add. apply Z.mod_small. lia.
Qed.

Lemma best_so_far_first (pt c0 : Point) :
  best_so_far pt [c0] (DistanceSquare pt c0) 0.
Proof.
  unfold best_so_far. repeat split.
  - lia.
  - exists c0. split; reflexivity.
  - intros [|[|j]] c E; simpl in E; try discriminate.
    injection E as <-. apply Double.ltb_irrefl.
  - intros j c _ Hj. lia.
  - intros c1 E. simpl in E. injection E as <-. trivial.
  - intros N [|[|j]] c E Nc; simpl in E; try discriminate.
    injection E as <-. apply Double.leb_refl. assumption.
Qed.

Lemma nth_error_snoc_inv {A : Type} (l : list A) (x : A) j c :
  nth_error (l ++ [x]) j = Some c ->
  (j < length l)%nat /\ nth_error l j = Some c \/ j = length l /\ c = x.
Proof.
  intros E. destruct (Nat.lt_ge_cases j (length l)) as [Hlt|Hge].
  - left. split; [assumption|]. rewrite nth_error_app1 in E; assumption.
  - right. rewrite nth_error_app2 in E by assumption.
    destruct (j - length l)%nat as [|[|k]] eqn:D; simpl in E; try discriminate.
    injection E as <-. split; [lia | reflexivity].
Qed.

(** One pass through the loop body keeps the invariant. *)
Lemma best_so_far_next (pt : Point) seen x min_dist closest_id :
  seen <> [] ->
  best_so_far pt seen min_dist closest_id ->
  let dist := DistanceSquare pt x in
  best_so_far pt (seen ++ [x])
    (if (dist <? min_dist)%float then dist else min_dist)
    (if (dist <? min_dist)%float then Z.of_nat (length seen) else closest_id).
Proof.
  intros Hne (H0 & (cb & Hcb & Hmin) & Hlt & Hle & Hnan0 & Hlow) dist.
  assert (Hlen : (Z.to_nat closest_id < length seen)%nat).
  { apply nth_error_Some. congruence. }
  destruct (dist <? min_dist)%float eqn:Ed.
  - (* the new centroid is strictly closer *)
    unfold best_so_far. repeat split.
    + lia.
    + exists x. split; [|reflexivity].
      rewrite Nat2Z.id, nth_error_app2, Nat.sub_diag by lia. reflexivity.
    + intros j c E. apply nth_error_snoc_inv in E as [[_ E]|[_ ->]].
      * destruct (DistanceSquare pt c <? dist)%float eqn:E'; [|reflexivity].
        pose proof (Double.ltb_trans _ _ _ E' Ed) as C.
        rewrite (Hlt j c E) in C. discriminate.
      * apply Double.ltb_irrefl.
    + intros j c E Hj. apply nth_error_snoc_inv in E as [[_ E]|[-> _]]; [|lia].
      destruct (DistanceSquare pt c <=? dist)%float eqn:E'; [|reflexivity].
      pose proof (Double.leb_ltb_trans _ _ _ E' Ed) as C.
      rewrite (Hlt j c E) in C. discriminate.
    + intros c0 E N. apply (Double.ltb_not_nan _ _ Ed).
    + intros Nd j c E Nc. apply nth_error_snoc_inv in E as [[_ E]|[_ ->]].
      * apply (Double.ltb_leb_trans _ _ _ Ed).
        apply (Hlow (Double.ltb_not_nan_r _ _ Ed) j c E Nc).
      * apply Double.leb_refl. assumption.
  - (* the best centroid stays *)
    unfold best_so_far. repeat split.
    + assumption.
    + exists cb. split; [|assumption].
      rewrite nth_error_app1 by assumption. assumption.
    + intros j c E. apply nth_error_snoc_inv in E as [[_ E]|[_ ->]].
      * apply (Hlt j c E).
      * assumption.
    + intros j c E Hj. apply nth_error_snoc_inv in E as [[_ E]|[-> _]]; [|lia].
      apply (Hle j c E Hj).
    + intros c0 E. apply Hnan0.
      destruct seen; [congruence|]. simpl in *. assumption.
    + intros Nm j c E Nc. apply nth_error_snoc_inv in E as [[_ E]|[_ ->]].
      * apply (Hlow Nm j c E Nc).
      * apply Double.not_ltb_leb; assumption.
Qed.

(** The loop extends the invariant from the centroids seen to all of them. *)
Lemma Classify_loop_best (pt : Point) rest :
  forall seen i min_dist closest_id,
    seen <> [] ->
    i = Z.of_nat (length seen) ->
    Z.of_nat (length (seen ++ rest)) < SIZE_MOD ->
    best_so_far pt seen min_dist closest_id ->
    best_so_far pt (seen ++ rest)
      (fst (Classify_loop pt rest i min_dist closest_id))
      (snd (Classify_loop pt rest i min_dist closest_id)).
Proof.
  induction rest as [|x rest IH]; intros seen i min_dist closest_id Hne Hi Hlen Hinv.
  - simpl. rewrite app_nil_r. assumption.
  - simpl.
    replace (seen ++ x :: rest) with ((seen ++ [x]) ++ rest) in *
      by (rewrite <- app_assoc; reflexivity).
    pose proof (best_so_far_next pt seen x min_dist closest_id Hne Hinv) as Hnext.
    simpl in Hnext. rewrite <- Hi in Hnext.
    assert (Hi' : size_incr i = Z.of_nat (length (seen ++ [x]))).
    { rewrite !length_app in *. cbn [length] in *.
      rewrite size_incr_exact; lia. }
    assert (Hne' : seen ++ [x] <> []) by (destruct seen; discriminate).
    destruct (DistanceSquare pt x <? min_dist)%float;
      apply IH; assumption.
Qed.

Lemma ComputeCost_loop_fst (pt : Point) rest :
  forall i min_dist closest_id,
    ComputeCost_loop pt rest min_dist =
    fst (Classify_loop pt rest i min_dist closest_id).
Proof.
  induction rest as [|x rest IH]; intros i min_dist closest_id; simpl.
  - reflexivity.
  - destruct (DistanceSquare pt x <? min_dist)%float; apply IH.
Qed.

Lemma closest_loop_eq (pt : Point) rest :
  forall i min_dist closest_id,
    closest_loop pt rest i min_dist closest_id =
    Classify_loop pt rest i min_dist closest_id.
Proof.
  induction rest as [|x rest IH]; intros i min_dist closest_id; simpl.
  - reflexivity.
  - destruct (DistanceSquare pt x <? min_dist)%float; apply IH.
Qed.

(** The id stays below the number of centroids scanned, whatever the
    length of the vector. *)
Lemma Classify_loop_range (pt : Point) rest :
  forall k i min_dist closest_id,
    0 <= i <= k -> 0 <= closest_id < k ->
    0 <= snd (Classify_loop pt rest i min_dist closest_id)
      < k + Z.of_nat (length rest).
Proof.
  induction rest as [|x rest IH]; intros k i min_dist closest_id Hi Hc.
  - simpl. lia.
  - assert (Hs : 0 <= size_incr i <= k + 1).
    { unfold size_incr, size_add.
      assert (0 <= (i + 1) mod SIZE_MOD < SIZE_MOD)
        by (apply Z.mod_pos_bound; reflexivity).
      assert ((i + 1) mod SIZE_MOD <= i + 1)
        by (apply Z.mod_le; [lia | reflexivity]).
      lia. }
    cbn [Classify_loop length].
    destruct (DistanceSquare pt x <? min_dist)%float.
    + specialize (IH (k + 1) (size_incr i) (DistanceSquare pt x) i Hs).
      lia.
    + specialize (IH (k + 1) (size_incr i) min_dist closest_id Hs).
      lia.
Qed.

(** What [Classify] has established when it returns. *)
Lemma Classify_best (pt c0 : Point) rest :
  Z.of_nat (length (c0 :: rest)) < SIZE_MOD ->
  best_so_far pt (c0 :: rest)
    (fst (Classify_loop pt rest 1 (DistanceSquare pt c0) 0))
    (snd (Classify_loop pt rest 1 (DistanceSquare pt c0) 0)).
Proof.
  intros Hlen.
  apply (Classify_loop_best pt rest [c0]); try assumption.
  - discriminate.
  - reflexivity.
  - apply best_so_far_first.
Qed.

Lemma mapM_Ret {A B : Type} (f : A -> outcome B) (g : A -> B) (l : list A) :
  (forall a, In a l -> f a = Ret (g a)) -> mapM f l = Ret (map g l).
Proof.
  induction l as [|a l IH]; intros H; simpl.
  - reflexivity.
  - rewrite (H a) by (left; reflexivity). simpl.
    rewrite IH by (intros b Hb; apply H; right; assumption).
    reflexivity.
Qed.

Lemma Forall2_map_r {A B : Type} (R : A -> B -> Prop) (g : A -> B) (l : list A) :
  (forall a, In a l -> R a (g a)) -> Forall2 R l (map g l).
Proof.
  induction l as [|a l IH]; intros H; simpl; constructor.
  - apply H. left. reflexivity.
  - apply IH. intros b Hb. apply H. right. assumption.
Qed.

(** The centroid [Classify] selects on a non-empty vector. *)
Lemma scan_nearest (m : KMeansModel Point) (pt : Point) :
  centroids m <> [] ->
  Z.of_nat (length (centroids m)) < SIZE_MOD ->
  exists r c_r,
    Classify m pt = Ret r /\
    ComputeCost m pt = Ret (DistanceSquare pt c_r) /\
    best_so_far pt (centroids m) (DistanceSquare pt c_r) r /\
    nth_error (centroids m) (Z.to_nat r) = Some c_r.
Proof.
  intros Hne Hlen. unfold Classify, ComputeCost.
  destruct (centroids m) as [|c0 rest] eqn:Ecs; [congruence|].
  pose proof (Classify_best pt c0 rest Hlen) as Hbest.
  destruct Hbest as (H0 & (cb & Hcb & Hmin) & Hrest).
  exists (snd (Classify_loop pt rest 1 (DistanceSquare pt c0) 0)), cb.
  rewrite (ComputeCost_loop_fst pt rest 1 _ 0), <- Hmin.
  repeat split; try assumption; try apply Hrest.
  exists cb. split; assumption.
Qed.

(** C1. On a non-empty centroid vector [Classify], and the assignment
    lambda of [KMeans] with it, return the index [r] of a centroid at
    minimum squared distance: no centroid is strictly closer than
    centroid [r], no centroid before [r] is as close (the lowest index
    wins a tie), and, NaN distances aside, the distance to centroid [r] is
    a lower bound of all distances. *)
Theorem Classify_nearest (NDEBUG : bool) (m : KMeansModel Point) (pt : Point) :
  centroids m <> [] ->
  Z.of_nat (length (centroids m)) < SIZE_MOD ->
  exists r c_r,
    Classify m pt = Ret r /\
    assign_lambda NDEBUG (centroids m) pt =
      Ret (mkClosestCentroid r (mkCentroidAccumulated pt 1)) /\
    0 <= r /\
    nth_error (centroids m) (Z.to_nat r) = Some c_r /\
    (forall j c, nth_error (centroids m) j = Some c ->
       (DistanceSquare pt c <? DistanceSquare pt c_r)%float = false) /\
    (forall j c, nth_error (centroids m) j = Some c -> Z.of_nat j < r ->
       (DistanceSquare pt c <=? DistanceSquare pt c_r)%float = false) /\
    (forall c0, nth_error (centroids m) 0 = Some c0 ->
       is_nan (DistanceSquare pt c0) = false ->
       forall j c, nth_error (centroids m) j = Some c ->
         is_nan (DistanceSquare pt c) = false ->
         (DistanceSquare pt c_r <=? DistanceSquare pt c)%float = true).
Proof.
  intros Hne Hlen.
  destruct (scan_nearest m pt Hne Hlen)
    as (r & c_r & Hc & _ & (H0 & _ & Hlt & Hle & Hnan0 & Hlow) & Hnth).
  exists r, c_r. repeat split; try assumption.
  - unfold Classify, assign_lambda in *.
    destruct (centroids m) as [|c0 rest]; [congruence|].
    injection Hc as <-.
    rewrite (closest_loop_eq pt rest 1 (DistanceSquare pt c0) 0). reflexivity.
  - intros c0 E0 N0. apply Hlow. apply (Hnan0 c0 E0 N0).
Qed.

Lemma Classify_index_valid (m : KMeansModel Point) (pt : Point) :
  centroids m <> [] ->
  exists r c,
    Classify m pt = Ret r /\
    0 <= r < Z.of_nat (length (centroids m)) /\
    nth_error (centroids m) (Z.to_nat r) = Some c.
Proof.
  intros Hne. unfold Classify.
  destruct (centroids m) as [|c0 rest] eqn:Ecs; [congruence|].
  pose proof (Classify_loop_range pt rest 1 1 (DistanceSquare pt c0) 0
                ltac:(lia) ltac:(lia)) as Hr.
  set (r := snd (Classify_loop pt rest 1 (DistanceSquare pt c0) 0)) in *.
  assert (Hr' : 0 <= r < Z.of_nat (length (c0 :: rest))).
  { cbn [length]. lia. }
  destruct (nth_error (c0 :: rest) (Z.to_nat r)) as [c|] eqn:E.
  - exists r, c. repeat split; try assumption; try lia.
  - apply nth_error_None in E. lia.
Qed.

(** C9. On a non-empty centroid vector of length [n], whatever
    [num_clusters] the model records, [Classify] returns an id below [n],
    a valid index into the vector, hence below every id of
    [[n, num_clusters)]. *)
Theorem Classify_in_range (m : KMeansModel Point) (pt : Point) :
  centroids m <> [] ->
  exists r c,
    Classify m pt = Ret r /\
    0 <= r < Z.of_nat (length (centroids m)) /\
    nth_error (centroids m) (Z.to_nat r) = Some c /\
    (forall id, Z.of_nat (length (centroids m)) <= id < num_clusters m ->
       r < id).
Proof.
  intros Hne.
  destruct (Classify_index_valid m pt Hne) as (r & c & Hc & Hr & Hnth).
  exists r, c. repeat split; try assumption; try lia.
Qed.

(** C5. On a non-empty centroid vector [ComputeCost] of a point is the
    squared distance to the centroid [Classify] selects, which no
    distance is strictly below and which, NaN distances aside, is a lower
    bound of all distances; [ComputeCost] of a DIA is the sum of the
    costs of its points. *)
Theorem ComputeCost_minimum (m : KMeansModel Point) (pt : Point)
    (points : DIA Point) :
  centroids m <> [] ->
  Z.of_nat (length (centroids m)) < SIZE_MOD ->
  (exists r c_r,
    Classify m pt = Ret r /\
    nth_error (centroids m) (Z.to_nat r) = Some c_r /\
    ComputeCost m pt = Ret (DistanceSquare pt c_r) /\
    (forall j c, nth_error (centroids m) j = Some c ->
       (DistanceSquare pt c <? DistanceSquare pt c_r)%float = false) /\
    (forall c0, nth_error (centroids m) 0 = Some c0 ->
       is_nan (DistanceSquare pt c0) = false ->
       forall j c, nth_error (centroids m) j = Some c ->
         is_nan (DistanceSquare pt c) = false ->
         (DistanceSquare pt c_r <=? DistanceSquare pt c)%float = true)) /\
  (exists costs,
    Forall2 (fun q cost => ComputeCost m q = Ret cost) points costs /\
    ComputeCost_DIA m points = Ret (fold_left PrimFloat.add costs 0%float)).
Proof.
  intros Hne Hlen. split.
  - destruct (scan_nearest m pt Hne Hlen)
      as (r & c_r & Hc & Hcost & (_ & _ & Hlt & _ & Hnan0 & Hlow) & Hnth).
    exists r, c_r. repeat split; try assumption.
    intros c0 E0 N0. apply Hlow. apply (Hnan0 c0 E0 N0).
  - unfold ComputeCost_DIA, ComputeCost.
    destruct (centroids m) as [|c0 rest] eqn:Ecs; [congruence|].
    set (g := fun q => ComputeCost_loop q rest (DistanceSquare q c0)).
    exists (map g points). split.
    + apply Forall2_map_r. intros q _. reflexivity.
    + rewrite (mapM_Ret _ g) by (intros q _; reflexivity). reflexivity.
Qed.

(** C4. With an empty centroid vector [Classify] and [ComputeCost] read
    [centroids_[0]] unchecked and report nothing, where the assignment
    lambda of [KMeans] asserts that the vector is not empty. *)
Theorem Classify_empty_unguarded (d k it : size_t) (pt : Point) :
  Classify (mkKMeansModel d k it []) pt = Undefined /\
  ComputeCost (mkKMeansModel d k it []) pt = Undefined /\
  assign_lambda false [] pt = AssertionFailed.
Proof.
  repeat split.
Qed.

End Scan.

(** ** ReduceByKey *)

Section Reduce.

Variables (T : Type) (key : T -> size_t) (reduce : T -> T -> T).

Hypothesis key_reduce : forall a b, key (reduce a b) = key a.

Lemma reduce_insert_cases (x : T) (table : list T) :
  (~ In (key x) (map key table) /\
   reduce_insert key reduce x table = table ++ [x]) \/
  (exists t1 y t2,
     table = t1 ++ y :: t2 /\ key y = key x /\
     ~ In (key x) (map key t1) /\
     reduce_insert key reduce x table = t1 ++ reduce y x :: t2).
Proof.
  induction table as [|y table IH]; simpl.
  - left. split; [tauto | reflexivity].
  - destruct (key y =? key x) eqn:E.
    + apply Z.eqb_eq in E. right. exists [], y, table. simpl. tauto.
    + apply Z.eqb_neq in E. destruct IH as [[Hn Hi]|(t1 & y' & t2 & Ht & Hk & Hn & Hi)].
      * left. rewrite Hi. split; [|reflexivity]. intros [H|H]; tauto.
      * right. exists (y :: t1), y', t2. rewrite Hi, Ht. simpl.
        repeat split; try assumption. intros [H|H]; tauto.
Qed.

Lemma filter_none {A : Type} (f : A -> bool) (l : list A) :
  (forall z, In z l -> f z = false) -> filter f l = [].
Proof.
  induction l as [|a l IH]; intros H; simpl.
  - reflexivity.
  - rewrite (H a) by (left; reflexivity).
    apply IH. intros z Hz. apply H. right. assumption.
Qed.

Lemma filter_key_snoc (k : size_t) (done : list T) (x : T) :
  filter (fun z => key z =? k) (done ++ [x]) =
  filter (fun z => key z =? k) done ++ (if key x =? k then [x] else []).
Proof.
  rewrite filter_app. reflexivity.
Qed.

Lemma table_of_insert (x : T) (table done : list T) :
  table_of key reduce table done ->
  table_of key reduce (reduce_insert key reduce x table) (done ++ [x]).
Proof.
  intros (Hnd & Hall & Hcov).
  destruct (reduce_insert_cases x table)
    as [[Hn ->]|(t1 & y & t2 & -> & Hk & Hn & ->)].
  - (* a new key *)
    unfold table_of. rewrite map_app. simpl. repeat split.
    + apply NoDup_app; [assumption | repeat constructor; simpl; tauto | ].
      intros k Hin [<-|[]]. tauto.
    + apply Forall_app. split.
      * rewrite Forall_forall in *. intros y Hy.
        destruct (Hall y Hy) as (x0 & g & Hf & He).
        exists x0, g. split; [|assumption].
        rewrite filter_key_snoc, Hf.
        destruct (key x =? key y) eqn:E; [|apply app_nil_r].
        apply Z.eqb_eq in E. exfalso. apply Hn. rewrite E.
        apply in_map. assumption.
      * constructor; [|constructor]. exists x, []. split; [|reflexivity].
        rewrite filter_key_snoc, Z.eqb_refl.
        rewrite filter_none; [reflexivity|].
        intros z Hz.
        destruct (key z =? key x) eqn:E; [|reflexivity].
        apply Z.eqb_eq in E. exfalso. apply Hn. rewrite <- E.
        apply Hcov. assumption.
    + intros z Hz. apply in_app_or in Hz as [Hz|[<-|[]]].
      * apply in_or_app. left. apply Hcov. assumption.
      * apply in_or_app. right. left. reflexivity.
  - (* the key of a stored item *)
    assert (Hkeys : map key (t1 ++ reduce y x :: t2) = map key (t1 ++ y :: t2)).
    { rewrite !map_app. simpl. rewrite key_reduce. reflexivity. }
    unfold table_of. rewrite Hkeys. repeat split.
    + assumption.
    + rewrite map_app in Hnd. simpl in Hnd.
      apply NoDup_remove in Hnd as [_ Hny].
      apply Forall_app in Hall as [H1 H2].
      apply Forall_cons_iff in H2 as [Hy H2].
      assert (Hother : forall y', In y' (t1 ++ t2) -> (key x =? key y') = false).
      { intros y' Hy'. apply Z.eqb_neq. intros E. apply Hny.
        rewrite <- map_app. rewrite Hk, E. apply in_map. assumption. }
      assert (Hkeep : forall l, (forall y', In y' l -> In y' (t1 ++ t2)) ->
        Forall (fun y0 => exists x0 g,
                  filter (fun z => key z =? key y0) done = x0 :: g /\
                  y0 = fold_left reduce g x0) l ->
        Forall (fun y0 => exists x0 g,
                  filter (fun z => key z =? key y0) (done ++ [x]) = x0 :: g /\
                  y0 = fold_left reduce g x0) l).
      { intros l Hl Hf. rewrite Forall_forall in *. intros y' Hy'.
        destruct (Hf y' Hy') as (x0 & g & Hfg & He).
        exists x0, g. split; [|assumption].
        rewrite filter_key_snoc, Hfg, (Hother y' (Hl y' Hy')).
        apply app_nil_r. }
      apply Forall_app. split.
      * apply Hkeep; [|assumption]. intros; apply in_or_app; tauto.
      * constructor.
        -- destruct Hy as (x0 & g & Hfg & He).
           exists x0, (g ++ [x]). split.
           ++ rewrite filter_key_snoc, key_reduce, Hfg.
              rewrite <- Hk, Z.eqb_refl. reflexivity.
           ++ rewrite fold_left_app. simpl. rewrite <- He. reflexivity.
        -- apply Hkeep; [|assumption]. intros; apply in_or_app; tauto.
    + intros z Hz. apply in_app_or in Hz as [Hz|[<-|[]]].
      * apply Hcov. assumption.
      * rewrite map_app. apply in_or_app. right. left. assumption.
Qed.

Lemma table_of_fold (l : list T) :
  forall table done,
    table_of key reduce table done ->
    table_of key reduce
      (fold_left (fun t x => reduce_insert key reduce x t) l table)
      (done ++ l).
Proof.
  induction l as [|x l IH]; intros table done H; simpl.
  - rewrite app_nil_r. assumption.
  - replace (done ++ x :: l) with ((done ++ [x]) ++ l)
      by (rewrite <- app_assoc; reflexivity).
    apply IH. apply table_of_insert. assumption.
Qed.

(** The result of [ReduceByKey]: one item per distinct key, each the
    merge, in item order, of the items of that key. *)
Lemma ReduceByKey_table (l : list T) :
  table_of key reduce (ReduceByKey key reduce l) l.
Proof.
  apply (table_of_fold l [] []).
  unfold table_of. simpl. repeat split.
  - constructor.
  - constructor.
  - intros z [].
Qed.

Lemma ReduceByKey_keys (l : list T) (k : size_t) :
  In k (map key (ReduceByKey key reduce l)) <-> In k (map key l).
Proof.
  destruct (ReduceByKey_table l) as (_ & Hall & Hcov). split.
  - intros Hk. apply in_map_iff in Hk as (y & <- & Hy).
    rewrite Forall_forall in Hall.
    destruct (Hall y Hy) as (x0 & g & Hfg & _).
    assert (Hin : In x0 (filter (fun z => key z =? key y) l))
      by (rewrite Hfg; left; reflexivity).
    apply filter_In in Hin as [Hin E]. apply Z.eqb_eq in E.
    rewrite <- E. apply in_map. assumption.
  - intros Hk. apply in_map_iff in Hk as (z & <- & Hz). apply Hcov. assumption.
Qed.

(** A left-to-right merge is one of the merge orders. *)
Lemma fold_left_merge (g : list T) :
  forall t : merge_tree T,
    exists t', leaves t' = leaves t ++ g /\
               merge reduce t' = fold_left reduce g (merge reduce t).
Proof.
  induction g as [|x g IH]; intros t.
  - exists t. rewrite app_nil_r. split; reflexivity.
  - destruct (IH (Node t (Leaf x))) as (t' & Hl & Hm).
    exists t'. split.
    + rewrite Hl. simpl. rewrite <- app_assoc. reflexivity.
    + rewrite Hm. reflexivity.
Qed.

(** Every item [ReduceByKey] returns is a merge of exactly the items of
    its key. *)
Lemma ReduceByKey_merge (l : list T) (y : T) :
  In y (ReduceByKey key reduce l) ->
  exists t, leaves t = filter (fun z => key z =? key y) l /\
            merge reduce t = y.
Proof.
  intros Hy. destruct (ReduceByKey_table l) as (_ & Hall & _).
  rewrite Forall_forall in Hall.
  destruct (Hall y Hy) as (x & g & Hf & ->).
  destruct (fold_left_merge g (Leaf x)) as (t & Hl & Hm).
  exists t. split.
  - rewrite Hl, Hf. reflexivity.
  - exact Hm.
Qed.

Lemma Forall_pick {A B : Type} (P : A -> B -> Prop) (l : list A) :
  (forall a, In a l -> exists b, P a b) -> exists bs, Forall2 P l bs.
Proof.
  induction l as [|a l IH]; intros H.
  - exists []. constructor.
  - destruct (H a (or_introl eq_refl)) as (b & Hb).
    destruct IH as (bs & Hbs); [intros a' Ha'; apply H; right; exact Ha'|].
    exists (b :: bs). constructor; assumption.
Qed.

Lemma picked_trees (l out : list T) (trees : list (merge_tree T)) :
  Forall2 (fun y t => leaves t = filter (fun z => key z =? key y) l /\
                      merge reduce t = y) out trees ->
  Forall2 (fun k t => Permutation (leaves t) (filter (fun z => key z =? k) l))
    (map key out) trees /\
  out = map (merge reduce) trees.
Proof.
  induction 1 as [|y t out ts [Hl Hm] _ [IH1 IH2]]; simpl.
  - split; [constructor | reflexivity].
  - split.
    + constructor; [rewrite Hl; apply Permutation_refl | exact IH1].
    + rewrite Hm, <- IH2. reflexivity.
Qed.

(** The order [ReduceByKey] takes is one of those the contract allows. *)
Lemma ReduceByKey_admissible (l : list T) :
  reduces_by_key key reduce l (ReduceByKey key reduce l).
Proof.
  destruct (ReduceByKey_table l) as (Hnd & _ & Hcov).
  destruct (Forall_pick
              (fun y t => leaves t = filter (fun z => key z =? key y) l /\
                          merge reduce t = y)
              (ReduceByKey key reduce l)
              (fun y Hy => ReduceByKey_merge l y Hy)) as (trees & Htrees).
  destruct (picked_trees _ _ _ Htrees) as [H1 H2].
  exists (map key (ReduceByKey key reduce l)), trees.
  split; [exact Hnd|]. split; [exact H1|]. split; [exact Hcov | exact H2].
Qed.

End Reduce.

(** ** One round of Lloyd's algorithm *)

Section Round.

Context {Point : Type} {ops : PointOps Point}.

Variable NDEBUG : bool.

Lemma key_combine (a b : ClosestCentroid Point) :
  key_lambda (combine_lambda a b) = key_lambda a.
Proof. reflexivity. Qed.

(** The record the lambda emits for [pt] under centroids [c0 :: rest]. *)
Lemma assign_lambda_cons (c0 : Point) rest pt :
  assign_lambda NDEBUG (c0 :: rest) pt =
  Ret (mkClosestCentroid
         (snd (closest_loop pt rest 1 (DistanceSquare pt c0) 0))
         (mkCentroidAccumulated pt 1)).
Proof. reflexivity. Qed.

Lemma assign_lambda_total (cs : list Point) pt :
  cs <> [] ->
  exists k, assign_lambda NDEBUG cs pt =
            Ret (mkClosestCentroid k (mkCentroidAccumulated pt 1)).
Proof.
  destruct cs as [|c0 rest]; [congruence|]. intros _.
  eexists. apply assign_lambda_cons.
Qed.

Lemma filter_map_swap {A B : Type} (f : B -> bool) (h : A -> B) (l : list A) :
  filter f (map h l) = map h (filter (fun a => f (h a)) l).
Proof.
  induction l as [|a l IH]; simpl.
  - reflexivity.
  - destruct (f (h a)); simpl; rewrite IH; reflexivity.
Qed.

(** Merging the records of a group, in item order, adds up its points and
    counts them modulo 2^64. *)
Lemma fold_combine_seeded (k : Point -> size_t) (g : list Point) :
  forall acc : ClosestCentroid Point,
    fold_left combine_lambda
      (map (fun pt => mkClosestCentroid (k pt) (mkCentroidAccumulated pt 1)) g)
      acc =
    mkClosestCentroid (cluster_id acc)
      (mkCentroidAccumulated
         (fold_left point_add g (p (center acc)))
         (fold_left (fun c _ => size_add c 1) g (count (center acc)))).
Proof.
  induction g as [|x g IH]; intros acc.
  - destruct acc as [id [pp c]]. reflexivity.
  - cbn [map fold_left]. rewrite IH. reflexivity.
Qed.

Lemma fold_count (g : list Point) :
  forall c, 0 <= c < SIZE_MOD ->
    fold_left (fun c (_ : Point) => size_add c 1) g c =
    (c + Z.of_nat (length g)) mod SIZE_MOD.
Proof.
  induction g as [|x g IH]; intros c Hc.
  - cbn [fold_left length]. rewrite Z.add_0_r, Z.mod_small; [reflexivity | lia].
  - cbn [fold_left length]. rewrite IH.
    + unfold size_add. rewrite Zplus_mod_idemp_l. f_equal. lia.
    + unfold size_add. apply Z.mod_pos_bound. reflexivity.
Qed.

Lemma Forall2_map_map {A B C : Type} (R : B -> C -> Prop)
    (f : A -> B) (g : A -> C) (l : list A) :
  Forall (fun a => R (f a) (g a)) l -> Forall2 R (map f l) (map g l).
Proof.
  induction 1; simpl; constructor; assumption.
Qed.

(** The assignment step on a non-empty centroid vector. *)
Lemma assign_step_spec (cs : list Point) (points : DIA Point) :
  cs <> [] ->
  exists k : Point -> size_t,
    (forall pt, assign_lambda NDEBUG cs pt =
                Ret (mkClosestCentroid (k pt) (mkCentroidAccumulated pt 1))) /\
    assign_step NDEBUG points cs =
      Ret (map (fun pt => mkClosestCentroid (k pt) (mkCentroidAccumulated pt 1))
             points).
Proof.
  destruct cs as [|c0 rest]; [congruence|]. intros _.
  exists (fun pt => snd (closest_loop pt rest 1 (DistanceSquare pt c0) 0)).
  split.
  - intros pt. apply assign_lambda_cons.
  - unfold assign_step, Keep. apply mapM_Ret. intros pt _.
    apply assign_lambda_cons.
Qed.

(** The centroids recomputed from the records of one assignment step: one
    per cluster id that occurs, each the mean of the points of that id. *)
Lemma recompute_step_spec (k : Point -> size_t) (points : DIA Point) :
  Z.of_nat (length points) < SIZE_MOD ->
  let closest :=
    map (fun pt => mkClosestCentroid (k pt) (mkCentroidAccumulated pt 1))
      points in
  exists ids,
    NoDup ids /\
    (forall id, In id ids <-> exists pt, In pt points /\ k pt = id) /\
    Forall2 (fun id c => mean_of (filter (fun pt => k pt =? id) points) = Some c)
      ids (recompute_step closest).
Proof.
  intros Hlen closest.
  set (h := fun pt => mkClosestCentroid (k pt) (mkCentroidAccumulated pt 1)) in *.
  destruct (ReduceByKey_table _ key_lambda combine_lambda key_combine closest)
    as (Hnd & Hall & Hcov).
  exists (map key_lambda (ReduceByKey key_lambda combine_lambda closest)).
  split; [assumption|]. split.
  - intros id.
    rewrite (ReduceByKey_keys _ key_lambda combine_lambda key_combine).
    unfold closest. rewrite map_map. rewrite in_map_iff.
    split; intros (pt & H1 & H2); exists pt; split; assumption.
  - unfold recompute_step, Collapse, Map. apply Forall2_map_map.
    rewrite Forall_forall in *. intros y Hy.
    destruct (Hall y Hy) as (x0 & g & Hfg & He).
    unfold closest in Hfg. rewrite filter_map_swap in Hfg.
    cbn [key_lambda h cluster_id] in Hfg.
    apply map_eq_cons in Hfg as (pt0 & g' & Hf & Hx0 & Hg).
    change (filter (fun pt => k pt =? key_lambda y) points = pt0 :: g') in Hf.
    rewrite Hf.
    assert (Hsub : (length (pt0 :: g') <= length points)%nat).
    { rewrite <- Hf. apply filter_length_le. }
    unfold mean_of, mean_lambda. f_equal.
    subst x0 g y.
    subst h. cbv beta. rewrite !fold_combine_seeded.
    cbn [center p count cluster_id].
    rewrite fold_count by (unfold SIZE_MOD; lia).
    rewrite Z.mod_small by (cbn [length] in *; lia).
    do 2 f_equal. cbn [length]. lia.
Qed.

Lemma assigned_to_key (cs : list Point) (k : Point -> size_t) :
  (forall pt, assign_lambda NDEBUG cs pt =
              Ret (mkClosestCentroid (k pt) (mkCentroidAccumulated pt 1))) ->
  forall id pt, assigned_to NDEBUG cs id pt = (k pt =? id).
Proof.
  intros Hk id pt. unfold assigned_to. rewrite Hk. reflexivity.
Qed.

(** Distinct ids below [n] are at most [n]. *)
Lemma distinct_ids_bounded (ids : list Z) (n : nat) :
  NoDup ids -> (forall id, In id ids -> 0 <= id < Z.of_nat n) ->
  (length ids <= n)%nat.
Proof.
  intros Hnd Hb.
  rewrite <- (length_map Z.to_nat ids), <- (length_seq n 0).
  apply NoDup_incl_length.
  - induction Hnd as [|x l Hx Hnd IH]; simpl; constructor.
    + intros Hin. apply in_map_iff in Hin as (y & Hy & Hin).
      assert (y = x).
      { pose proof (Hb x (or_introl eq_refl)).
        pose proof (Hb y (or_intror Hin)). lia. }
      subst y. contradiction.
    + apply IH. intros id Hid. apply Hb. right. assumption.
  - intros i Hi. apply in_map_iff in Hi as (id & <- & Hid).
    apply in_seq. specialize (Hb id Hid). lia.
Qed.

(** The ids the assignment lambda emits are indices of the centroid
    vector. *)
Lemma assign_lambda_range (cs : list Point) pt cc :
  assign_lambda NDEBUG cs pt = Ret cc ->
  0 <= cluster_id cc < Z.of_nat (length cs).
Proof.
  destruct cs as [|c0 rest]; simpl.
  - destruct NDEBUG; discriminate.
  - intros [= <-]. cbn [cluster_id].
    rewrite (closest_loop_eq pt rest 1 (DistanceSquare pt c0) 0).
    pose proof (Classify_loop_range pt rest 1 1 (DistanceSquare pt c0) 0
                  ltac:(lia) ltac:(lia)).
    lia.
Qed.

(** The centroids of the next round: one per cluster id that received a
    point, never more than before. *)
Lemma loop_body_centroids (points : DIA Point) (s s' : loop_state Point) :
  loop_body NDEBUG points s = Ret s' ->
  exists ids,
    NoDup ids /\
    (forall id, In id ids <->
       exists pt, In pt points /\
                  assigned_to NDEBUG (cur_centroids s) id pt = true) /\
    length (cur_centroids s') = length ids /\
    (length (cur_centroids s') <= length (cur_centroids s))%nat.
Proof.
  unfold loop_body, AllGather. intros Hbody.
  destruct (cur_centroids s) as [|c0 rest] eqn:Ecs.
  - (* no centroid: the lambda runs for no point, or fails *)
    destruct points as [|pt points].
    + simpl in Hbody. injection Hbody as <-. exists []. cbn.
      repeat split; try constructor; try tauto.
      intros (pt & [] & _).
    + unfold assign_step, Keep in Hbody. simpl in Hbody.
      destruct NDEBUG; discriminate.
  - destruct (assign_step_spec (c0 :: rest) points ltac:(discriminate))
      as (k & Hk & Hstep).
    rewrite Hstep in Hbody. simpl in Hbody. injection Hbody as <-.
    cbn [cur_centroids].
    set (closest := map _ points).
    destruct (ReduceByKey_table _ key_lambda combine_lambda key_combine closest)
      as (Hnd & _ & _).
    exists (map key_lambda (ReduceByKey key_lambda combine_lambda closest)).
    assert (Hiff : forall id,
      In id (map key_lambda (ReduceByKey key_lambda combine_lambda closest)) <->
      exists pt, In pt points /\ assigned_to NDEBUG (c0 :: rest) id pt = true).
    { intros id.
      rewrite (ReduceByKey_keys _ key_lambda combine_lambda key_combine).
      unfold closest. rewrite map_map, in_map_iff.
      split; intros (pt & H1 & H2); exists pt.
      - rewrite (assigned_to_key _ k Hk). split; [assumption|].
        apply Z.eqb_eq. assumption.
      - rewrite (assigned_to_key _ k Hk) in H2. apply Z.eqb_eq in H2.
        split; assumption. }
    assert (Hlen : length (recompute_step closest) =
      length (map key_lambda (ReduceByKey key_lambda combine_lambda closest))).
    { unfold recompute_step, Collapse, Map. rewrite !length_map. reflexivity. }
    repeat split; try assumption; try apply Hiff.
    rewrite Hlen. apply distinct_ids_bounded; [assumption|].
    intros id Hid. apply Hiff in Hid as (pt & _ & Ha).
    unfold assigned_to in Ha.
    destruct (assign_lambda NDEBUG (c0 :: rest) pt) as [cc| |] eqn:Ea;
      try discriminate.
    apply Z.eqb_eq in Ha. subst id. apply (assign_lambda_range _ _ _ Ea).
Qed.

Lemma rounds_centroids (points : DIA Point) (n : nat) :
  forall s s' : loop_state Point,
    rounds NDEBUG n points s = Ret s' ->
    (length (cur_centroids s') <= length (cur_centroids s))%nat.
Proof.
  induction n as [|n IH]; intros s s' Hr; simpl in Hr.
  - injection Hr as <-. lia.
  - destruct (loop_body NDEBUG points s) as [t| |] eqn:Eb; try discriminate.
    simpl in Hr.
    destruct (loop_body_centroids points s t Eb) as (_ & _ & _ & _ & Hle).
    specialize (IH t s' Hr). lia.
Qed.

(** C6. After a pass through the loop body the centroid set has exactly
    one centroid per distinct cluster id that received a point in that
    pass, hence no more centroids than before; over any number of further
    passes the number of centroids never increases. *)
Theorem centroids_never_increase (points : DIA Point)
    (s s' : loop_state Point) :
  loop_body NDEBUG points s = Ret s' ->
  (exists ids,
     NoDup ids /\
     (forall id, In id ids <->
        exists pt, In pt points /\
                   assigned_to NDEBUG (cur_centroids s) id pt = true) /\
     length (cur_centroids s') = length ids) /\
  (length (cur_centroids s') <= length (cur_centroids s))%nat /\
  (forall n s'', rounds NDEBUG n points s' = Ret s'' ->
     (length (cur_centroids s'') <= length (cur_centroids s'))%nat).
Proof.
  intros Hbody.
  destruct (loop_body_centroids points s s' Hbody)
    as (ids & Hnd & Hiff & Hlen & Hle).
  split; [|split].
  - exists ids. repeat split; try assumption; apply Hiff.
  - assumption.
  - intros n s'' Hr. apply (rounds_centroids points n s' s'' Hr).
Qed.

End Round.

(** ** The iteration loop and the model it returns *)

Section Loop.

Context {Point : Type} {ops : PointOps Point}.

Variable Sample : DIA Point -> size_t -> DIA Point.
Variable NDEBUG : bool.

(** Once the guard is false the loop is left, whatever fuel remains. *)
Lemma for_loop_exit fuel (points : DIA Point) it (s : loop_state Point) :
  (iter s <? it) = false ->
  for_loop NDEBUG fuel points it s = Some (Ret s).
Proof.
  intros Hg. destruct fuel; simpl; rewrite Hg; reflexivity.
Qed.

(** With fuel for the passes that remain, the loop makes exactly those
    passes. *)
Lemma for_loop_rounds (points : DIA Point) it (n : nat) :
  forall fuel (s : loop_state Point),
    n = Z.to_nat (it - iter s) ->
    0 <= iter s <= it -> it < SIZE_MOD ->
    (n <= fuel)%nat ->
    for_loop NDEBUG fuel points it s = Some (rounds NDEBUG n points s).
Proof.
  induction n as [|n IH]; intros fuel s Hn Hi Hit Hf.
  - apply for_loop_exit. apply Z.ltb_ge. lia.
  - destruct fuel as [|fuel]; [lia|].
    assert (Hg : (iter s <? it) = true) by (apply Z.ltb_lt; lia).
    cbn [for_loop rounds]. rewrite Hg.
    destruct (loop_body NDEBUG points s) as [s'| |] eqn:Eb; try reflexivity.
    cbn [bind].
    assert (Hs' : iter s' = iter s + 1).
    { unfold loop_body in Eb.
      destruct (assign_step NDEBUG points (AllGather (cur_centroids s)));
        try discriminate.
      simpl in Eb. injection Eb as <-. cbn [iter].
      apply size_incr_exact; lia. }
    apply IH; lia.
Qed.

Lemma rounds_iter (points : DIA Point) (n : nat) :
  forall s s' : loop_state Point,
    0 <= iter s -> iter s + Z.of_nat n < SIZE_MOD ->
    rounds NDEBUG n points s = Ret s' ->
    iter s' = iter s + Z.of_nat n.
Proof.
  induction n as [|n IH]; intros s s' H0 Hb Hr; simpl in Hr.
  - injection Hr as <-. lia.
  - destruct (loop_body NDEBUG points s) as [t| |] eqn:Eb; try discriminate.
    simpl in Hr.
    assert (Ht : iter t = iter s + 1).
    { unfold loop_body in Eb.
      destruct (assign_step NDEBUG points (AllGather (cur_centroids s)));
        try discriminate.
      simpl in Eb. injection Eb as <-. cbn [iter].
      apply size_incr_exact; lia. }
    rewrite (IH t s'); try assumption; lia.
Qed.

(** C7. For every iteration count [it] (a [size_t]) and fuel for [it]
    passes, the loop of [KMeans] terminates after exactly [it] passes
    through its body, with [iter = it]: the guard [iter < it] is its only
    exit, and the model is built from the state after those passes. *)
Theorem KMeans_runs_iterations (fuel : nat) (input_points : DIA Point)
    (d k it : size_t) :
  0 <= it < SIZE_MOD ->
  (Z.to_nat it <= fuel)%nat ->
  let s0 := mkLoopState 0 (Sample input_points k) in
  for_loop NDEBUG fuel input_points it s0 =
    Some (rounds NDEBUG (Z.to_nat it) input_points s0) /\
  KMeans Sample NDEBUG fuel input_points d k it =
    Some (s <- rounds NDEBUG (Z.to_nat it) input_points s0 ;;
          Ret (mkKMeansModel d k it (cur_centroids s))) /\
  (forall s, rounds NDEBUG (Z.to_nat it) input_points s0 = Ret s ->
             iter s = it /\ (iter s <? it) = false).
Proof.
  intros Hit Hf s0.
  assert (Hloop : for_loop NDEBUG fuel input_points it s0 =
                  Some (rounds NDEBUG (Z.to_nat it) input_points s0)).
  { apply for_loop_rounds; try assumption; cbn [iter s0]; try lia. }
  split; [assumption|]. split.
  - unfold KMeans, Cache, Keep, AllGather. fold s0. rewrite Hloop. reflexivity.
  - intros s Hr. apply rounds_iter in Hr; cbn [iter s0] in *; lia.
Qed.

(** C10. With [iterations = 0] the loop is left before its body runs,
    even with no fuel at all, and the centroids of the model are the
    initial sample of [num_clusters] points of the input. *)
Theorem KMeans_zero_iterations (fuel : nat) (input_points : DIA Point)
    (d k : size_t) :
  for_loop NDEBUG 0 input_points 0 (mkLoopState 0 (Sample input_points k)) =
    Some (Ret (mkLoopState 0 (Sample input_points k))) /\
  KMeans Sample NDEBUG fuel input_points d k 0 =
    Some (Ret (mkKMeansModel d k 0 (Sample input_points k))).
Proof.
  split.
  - reflexivity.
  - unfold KMeans, Cache, Keep, AllGather.
    rewrite for_loop_exit by reflexivity. reflexivity.
Qed.


End Loop.

(** ** Merging the records of one cluster in any order *)

Section Merge.

Context {Point : Type} {ops : PointOps Point}.

Lemma size_add_comm (a b : size_t) : size_add a b = size_add b a.
Proof. unfold size_add. rewrite Z.add_comm. reflexivity. Qed.

Lemma size_add_assoc (a b c : size_t) :
  size_add (size_add a b) c = size_add a (size_add b c).
Proof.
  unfold size_add.
  rewrite Zplus_mod_idemp_l, Zplus_mod_idemp_r, Z.add_assoc. reflexivity.
Qed.

Lemma sum_app (l1 l2 : list Z) :
  fold_right Z.add 0 (l1 ++ l2) =
  fold_right Z.add 0 l1 + fold_right Z.add 0 l2.
Proof.
  induction l1 as [|c l1 IH]; simpl; [reflexivity | rewrite IH; lia].
Qed.

(** The cluster id of a merge is the one its leaves share. *)
Lemma merge_cluster_id (k : size_t) (t : merge_tree (ClosestCentroid Point)) :
  Forall (fun cc => cluster_id cc = k) (leaves t) ->
  cluster_id (merge combine_lambda t) = k.
Proof.
  induction t as [x|l IHl r IHr]; simpl; intros H.
  - inversion H. assumption.
  - apply Forall_app in H as [Hl _]. apply IHl. assumption.
Qed.

(** The count of a merge is the sum of the counts at the leaves, modulo
    2^64. *)
Lemma merge_count (t : merge_tree (ClosestCentroid Point)) :
  count (center (merge combine_lambda t)) mod SIZE_MOD =
  fold_right Z.add 0 (map (fun cc => count (center cc)) (leaves t))
    mod SIZE_MOD.
Proof.
  induction t as [x|l IHl r IHr]; simpl.
  - rewrite Z.add_0_r. reflexivity.
  - unfold size_add. rewrite Z.mod_mod by discriminate.
    rewrite map_app, sum_app.
    rewrite Zplus_mod, IHl, IHr, <- Zplus_mod. reflexivity.
Qed.

Lemma merge_node_count_range (l r : merge_tree (ClosestCentroid Point)) :
  count (center (merge combine_lambda (Node l r))) mod SIZE_MOD =
  count (center (merge combine_lambda (Node l r))).
Proof.
  simpl. unfold size_add. apply Z.mod_mod. discriminate.
Qed.

Lemma sum_counts_perm (l l' : list (ClosestCentroid Point)) :
  Permutation l l' ->
  fold_right Z.add 0 (map (fun cc => count (center cc)) l) =
  fold_right Z.add 0 (map (fun cc => count (center cc)) l').
Proof.
  induction 1; simpl; lia.
Qed.

Lemma leaves_length (t : merge_tree (ClosestCentroid Point)) :
  (1 <= length (leaves t))%nat.
Proof.
  induction t; simpl; [lia | rewrite length_app; lia].
Qed.

(** Count and cluster id do not depend on the merge order. *)
Lemma merge_count_perm (t1 t2 : merge_tree (ClosestCentroid Point)) :
  Permutation (leaves t1) (leaves t2) ->
  count (center (merge combine_lambda t1)) =
  count (center (merge combine_lambda t2)).
Proof.
  intros Hp.
  pose proof (Permutation_length Hp) as Hlen.
  pose proof (merge_count t1) as H1. pose proof (merge_count t2) as H2.
  rewrite (sum_counts_perm _ _ Hp) in H1.
  destruct t1 as [x|l1 r1], t2 as [y|l2 r2].
  - simpl in Hp. apply Permutation_length_1 in Hp. subst. reflexivity.
  - exfalso. simpl in Hlen. rewrite length_app in Hlen.
    pose proof (leaves_length l2). pose proof (leaves_length r2). lia.
  - exfalso. simpl in Hlen. rewrite length_app in Hlen.
    pose proof (leaves_length l1). pose proof (leaves_length r1). lia.
  - rewrite <- merge_node_count_range, H1, <- H2.
    apply merge_node_count_range.
Qed.

Section Commutative.

Hypothesis point_add_comm : forall x y : Point, point_add x y = point_add y x.

Lemma combine_comm (a b : ClosestCentroid Point) :
  cluster_id a = cluster_id b -> combine_lambda a b = combine_lambda b a.
Proof.
  intros H. unfold combine_lambda.
  rewrite H, point_add_comm, size_add_comm. reflexivity.
Qed.

Lemma mirrored_leaves (t1 t2 : merge_tree (ClosestCentroid Point)) :
  mirrored t1 t2 -> Permutation (leaves t1) (leaves t2).
Proof.
  induction 1; simpl.
  - apply Permutation_refl.
  - apply Permutation_app; assumption.
  - rewrite Permutation_app_comm. apply Permutation_app; assumption.
Qed.

Lemma merge_mirrored (k : size_t) (t1 t2 : merge_tree (ClosestCentroid Point)) :
  mirrored t1 t2 ->
  Forall (fun cc => cluster_id cc = k) (leaves t1) ->
  merge combine_lambda t1 = merge combine_lambda t2.
Proof.
  induction 1 as [x|l r l' r' Hl IHl Hr IHr|l r l' r' Hl IHl Hr IHr];
    simpl; intros H.
  - reflexivity.
  - apply Forall_app in H as [H1 H2]. rewrite IHl, IHr by assumption.
    reflexivity.
  - apply Forall_app in H as [H1 H2].
    rewrite <- IHl, <- IHr by assumption.
    apply combine_comm.
    rewrite (merge_cluster_id k l H1), (merge_cluster_id k r H2). reflexivity.
Qed.

Section Associative.

Hypothesis point_add_assoc :
  forall x y z : Point,
    point_add (point_add x y) z = point_add x (point_add y z).

Lemma fold_add_shift (g : list Point) :
  forall x y, fold_left point_add g (point_add x y) =
              point_add x (fold_left point_add g y).
Proof.
  induction g as [|z g IH]; intros x y; simpl.
  - reflexivity.
  - rewrite point_add_assoc. apply IH.
Qed.

Lemma fold_add_perm (g g' : list Point) :
  Permutation g g' ->
  forall x, fold_left point_add g x = fold_left point_add g' x.
Proof.
  induction 1 as [|y g g' _ IH|y z g|g g' g'' _ IH1 _ IH2]; intros x; simpl.
  - reflexivity.
  - apply IH.
  - rewrite !point_add_assoc, (point_add_comm z y). reflexivity.
  - rewrite IH1. apply IH2.
Qed.

(** The point sum of a merge is the sum of the points at the leaves. *)
Lemma merge_point_sum (t : merge_tree (ClosestCentroid Point)) :
  exists x g,
    map (fun cc => p (center cc)) (leaves t) = x :: g /\
    p (center (merge combine_lambda t)) = fold_left point_add g x.
Proof.
  induction t as [c|l (x & g & El & Hl) r (y & h & Er & Hr)]; simpl.
  - exists (p (center c)), []. split; reflexivity.
  - exists x, (g ++ y :: h). rewrite map_app, El, Er. split; [reflexivity|].
    rewrite Hl, Hr, fold_left_app. simpl.
    rewrite fold_add_shift. reflexivity.
Qed.

Lemma fold_add_perm_cons (x y : Point) (g h : list Point) :
  Permutation (x :: g) (y :: h) ->
  fold_left point_add g x = fold_left point_add h y.
Proof.
  intros Hp.
  assert (Hin : In y (x :: g)).
  { apply (Permutation_in y (Permutation_sym Hp)). left. reflexivity. }
  destruct Hin as [<-|Hin].
  - apply fold_add_perm. apply (Permutation_cons_inv Hp).
  - apply in_split in Hin as (g1 & g2 & ->).
    assert (Hh : Permutation (x :: g1 ++ g2) h).
    { apply (Permutation_cons_inv (a := y)).
      rewrite <- Hp. rewrite perm_swap. apply perm_skip.
      apply Permutation_middle. }
    rewrite <- (fold_add_perm _ _ Hh).
    rewrite (fold_add_perm (g1 ++ y :: g2) (y :: g1 ++ g2))
      by (symmetry; apply Permutation_middle).
    simpl. rewrite (point_add_comm y x). reflexivity.
Qed.

(** With an exact (associative and commutative) point addition the whole
    merged record is the same in any merge order. *)
Lemma merge_perm_exact (k : size_t) (t1 t2 : merge_tree (ClosestCentroid Point)) :
  Forall (fun cc => cluster_id cc = k) (leaves t1) ->
  Permutation (leaves t1) (leaves t2) ->
  merge combine_lambda t1 = merge combine_lambda t2.
Proof.
  intros Hk Hp.
  assert (Hk2 : Forall (fun cc => cluster_id cc = k) (leaves t2)).
  { rewrite Forall_forall in *. intros cc Hcc. apply Hk.
    apply (Permutation_in cc (Permutation_sym Hp) Hcc). }
  pose proof (merge_cluster_id k t1 Hk) as Hid1.
  pose proof (merge_cluster_id k t2 Hk2) as Hid2.
  pose proof (merge_count_perm t1 t2 Hp) as Hc.
  destruct (merge_point_sum t1) as (x & g & E1 & Hp1).
  destruct (merge_point_sum t2) as (y & h & E2 & Hp2).
  assert (Hps : p (center (merge combine_lambda t1)) =
                p (center (merge combine_lambda t2))).
  { rewrite Hp1, Hp2. apply fold_add_perm_cons.
    rewrite <- E1, <- E2. apply Permutation_map. assumption. }
  destruct (merge combine_lambda t1) as [id1 [p1 c1]],
           (merge combine_lambda t2) as [id2 [p2 c2]].
  simpl in *. congruence.
Qed.

End Associative.

End Commutative.

End Merge.

(** ** The recomputed centroids in any order of the engine *)

Section AnyOrder.

Context {Point : Type} {ops : PointOps Point}.

Variable NDEBUG : bool.

Lemma leaves_tree_map {A B : Type} (f : A -> B) (t : merge_tree A) :
  leaves (tree_map f t) = map f (leaves t).
Proof.
  induction t as [x|l IHl r IHr]; simpl.
  - reflexivity.
  - rewrite map_app, IHl, IHr. reflexivity.
Qed.

(** The point sum of a merge of records is the merge, in the same order,
    of their points. *)
Lemma merge_point_tree (t : merge_tree (ClosestCentroid Point)) :
  p (center (merge combine_lambda t)) =
  merge point_add (tree_map (fun cc => p (center cc)) t).
Proof.
  induction t as [x|l IHl r IHr]; simpl.
  - reflexivity.
  - rewrite IHl, IHr. reflexivity.
Qed.

(** A merge of records that each count one point counts its leaves. *)
Lemma merge_count_ones (t : merge_tree (ClosestCentroid Point)) :
  Forall (fun cc => count (center cc) = 1) (leaves t) ->
  Z.of_nat (length (leaves t)) < SIZE_MOD ->
  count (center (merge combine_lambda t)) = Z.of_nat (length (leaves t)).
Proof.
  induction t as [x|l IHl r IHr]; simpl; intros Hone Hlen.
  - inversion Hone. assumption.
  - apply Forall_app in Hone as [Hl Hr]. rewrite length_app in *.
    rewrite IHl, IHr by (assumption || lia).
    unfold size_add. rewrite Z.mod_small; lia.
Qed.

Lemma Forall2_In_l {A B : Type} (R : A -> B -> Prop) (l : list A) (l' : list B) :
  Forall2 R l l' -> forall a, In a l -> exists b, In b l' /\ R a b.
Proof.
  induction 1 as [|x y l l' Hxy _ IH]; intros a Ha.
  - contradiction.
  - destruct Ha as [<-|Ha].
    + exists y. split; [left; reflexivity | assumption].
    + destruct (IH a Ha) as (b & Hb & Hab). exists b. split; [right|]; assumption.
Qed.

Lemma Forall2_map_right {A B C : Type} (R : A -> B -> Prop) (R' : A -> C -> Prop)
    (f : B -> C) (l : list A) (l' : list B) :
  (forall a b, R a b -> R' a (f b)) ->
  Forall2 R l l' -> Forall2 R' l (map f l').
Proof.
  intros H. induction 1; simpl; constructor; auto.
Qed.

(** Whatever order the engine takes, the recomputed centroids are one per
    cluster id that occurs, each the sum of exactly the points of that id
    divided by their number. *)
Lemma admissible_means (k : Point -> size_t) (points : DIA Point)
    (reduced : DIA (ClosestCentroid Point)) :
  Z.of_nat (length points) < SIZE_MOD ->
  reduces_by_key key_lambda combine_lambda
    (map (fun pt => mkClosestCentroid (k pt) (mkCentroidAccumulated pt 1))
       points)
    reduced ->
  exists ids,
    NoDup ids /\
    (forall id, In id ids <-> exists pt, In pt points /\ k pt = id) /\
    Forall2 (fun id c => is_mean_of (filter (fun pt => k pt =? id) points) c)
      ids (Collapse (Map mean_lambda reduced)).
Proof.
  intros Hlen (ks & trees & Hnd & Htrees & Hcov & ->).
  set (h := fun pt => mkClosestCentroid (k pt) (mkCentroidAccumulated pt 1))
    in *.
  assert (Hgroup : forall id,
    filter (fun z => key_lambda z =? id) (map h points) =
    map h (filter (fun pt => k pt =? id) points)).
  { intros id. apply filter_map_swap. }
  exists ks. split; [exact Hnd|]. split.
  - intros id. split.
    + intros Hid.
      destruct (Forall2_In_l _ _ _ Htrees id Hid) as (t & _ & Hperm).
      rewrite Hgroup in Hperm.
      pose proof (leaves_length t) as Hl.
      apply Permutation_length in Hperm. rewrite length_map in Hperm.
      destruct (filter (fun pt => k pt =? id) points) as [|pt g] eqn:Ef;
        [simpl in Hperm; lia|].
      assert (Hin : In pt (filter (fun pt => k pt =? id) points))
        by (rewrite Ef; left; reflexivity).
      apply filter_In in Hin as [Hin Hk]. apply Z.eqb_eq in Hk.
      exists pt. split; assumption.
    + intros (pt & Hpt & <-). apply (Hcov (h pt)). apply in_map. exact Hpt.
  - unfold Collapse, Map. rewrite map_map.
    revert Htrees. apply Forall2_map_right. intros id t Hperm.
    rewrite Hgroup in Hperm.
    set (G := filter (fun pt => k pt =? id) points) in *.
    assert (HG : (length G <= length points)%nat) by apply filter_length_le.
    assert (Hleaves : length (leaves t) = length G).
    { rewrite (Permutation_length Hperm). apply length_map. }
    exists (tree_map (fun cc => p (center cc)) t). split.
    + rewrite leaves_tree_map.
      rewrite (Permutation_map (fun cc => p (center cc)) Hperm).
      rewrite map_map. cbn [h center p]. rewrite map_id.
      apply Permutation_refl.
    + unfold mean_lambda. rewrite merge_point_tree. f_equal. f_equal.
      rewrite <- Hleaves. apply merge_count_ones; [|lia].
      apply Forall_forall. intros cc Hcc.
      apply (Permutation_in cc Hperm) in Hcc.
      apply in_map_iff in Hcc as (pt & <- & _). reflexivity.
Qed.

(** The item-order mean is the mean for one order of the additions. *)
Lemma mean_of_is_mean (group : list Point) (c : Point) :
  mean_of group = Some c -> is_mean_of group c.
Proof.
  destruct group as [|x g]; simpl; [discriminate|]. intros [= <-].
  destruct (fold_left_merge _ point_add g (Leaf x)) as (t & Hl & Hm).
  exists t. split.
  - rewrite Hl. apply Permutation_refl.
  - rewrite Hm. reflexivity.
Qed.


End AnyOrder.

(** ** The model [KMeans] returns *)

Section Model.

Context {Point : Type} {ops : PointOps Point}.

Variable Sample : DIA Point -> size_t -> DIA Point.
Variable NDEBUG : bool.







End Model.

(** ** Points with [double] coordinates *)

Lemma VPoint_add_comm (x y : VPoint) : point_add x y = point_add y x.
Proof.
  simpl. unfold VPoint_add. revert y.
  induction x as [|a x IH]; intros [|b y]; simpl; try reflexivity.
  rewrite Double.add_comm, IH. reflexivity.
Qed.

(** [double] addition is not associative: (2^53 + 1) + 1 rounds twice. *)
Lemma VPoint_add_not_assoc :
  point_add (point_add (p (center cc_big)) (p (center cc_one)))
            (p (center cc_one)) <>
  point_add (p (center cc_big))
            (point_add (p (center cc_one)) (p (center cc_one))).
Proof.
  intros H.
  apply (f_equal (fun v => match v with
                           | [x] => (x =? 9007199254740992)%float
                           | _ => false
                           end)) in H.
  vm_compute in H. discriminate.
Qed.

(** C3, as stated, fails: merging the records 2^53, 1, 1 of one cluster
    left to right and right to left gives different point sums. *)
Lemma combine_not_associative :
  Forall (fun cc => cluster_id cc = 0) [cc_big; cc_one; cc_one] /\
  Permutation (leaves (Node (Node (Leaf cc_big) (Leaf cc_one)) (Leaf cc_one)))
              (leaves (Node (Leaf cc_big) (Node (Leaf cc_one) (Leaf cc_one)))) /\
  combine_lambda (combine_lambda cc_big cc_one) cc_one <>
  combine_lambda cc_big (combine_lambda cc_one cc_one) /\
  merge combine_lambda (Node (Node (Leaf cc_big) (Leaf cc_one)) (Leaf cc_one)) <>
  merge combine_lambda (Node (Leaf cc_big) (Node (Leaf cc_one) (Leaf cc_one))).
Proof.
  assert (Hne : combine_lambda (combine_lambda cc_big cc_one) cc_one <>
                combine_lambda cc_big (combine_lambda cc_one cc_one)).
  { intros H. apply VPoint_add_not_assoc.
    apply (f_equal (fun cc => p (center cc))) in H. exact H. }
  repeat split.
  - repeat constructor.
  - apply Permutation_refl.
  - exact Hne.
  - exact Hne.
Qed.

(** C3, amended. On points with [double] coordinates the combine function
    is commutative on records of one cluster id, and associative in
    cluster id and count; so for records sharing one cluster id every
    merge order yields the same cluster id and the same count, and merge
    orders that differ only in the order of the two operands of merges
    yield the same record. *)
Theorem combine_merge_order :
  (forall a b : ClosestCentroid VPoint,
     cluster_id a = cluster_id b -> combine_lambda a b = combine_lambda b a) /\
  (forall a b c : ClosestCentroid VPoint,
     cluster_id (combine_lambda (combine_lambda a b) c) =
       cluster_id (combine_lambda a (combine_lambda b c)) /\
     count (center (combine_lambda (combine_lambda a b) c)) =
       count (center (combine_lambda a (combine_lambda b c)))) /\
  (forall (k : size_t) (t1 t2 : merge_tree (ClosestCentroid VPoint)),
     Forall (fun cc => cluster_id cc = k) (leaves t1) ->
     Permutation (leaves t1) (leaves t2) ->
     cluster_id (merge combine_lambda t1) = cluster_id (merge combine_lambda t2) /\
     count (center (merge combine_lambda t1)) =
       count (center (merge combine_lambda t2))) /\
  (forall (k : size_t) (t1 t2 : merge_tree (ClosestCentroid VPoint)),
     Forall (fun cc => cluster_id cc = k) (leaves t1) ->
     mirrored t1 t2 ->
     merge combine_lambda t1 = merge combine_lambda t2).
Proof.
  split; [|split; [|split]].
  - intros a b. apply combine_comm. exact VPoint_add_comm.
  - intros a b c. split.
    + reflexivity.
    + simpl. apply size_add_assoc.
  - intros k t1 t2 Hk Hp. split.
    + rewrite (merge_cluster_id k t1 Hk). symmetry.
      apply merge_cluster_id.
      rewrite Forall_forall in *. intros cc Hcc. apply Hk.
      apply (Permutation_in cc (Permutation_sym Hp) Hcc).
    + apply merge_count_perm. assumption.
  - intros k t1 t2 Hk Hm.
    apply (merge_mirrored VPoint_add_comm k); assumption.
Qed.

(** ** Two orders of the engine, two means *)

(** The contract of ReduceByKey allows the order that merges the records
    1 and 1 first, and this order gives another centroid than the pass
    modelled here: the mean depends on the order of the additions. *)
Lemma means_depend_on_order :
  reduces_by_key key_lambda combine_lambda [cc_big; cc_one; cc_one]
    [merge combine_lambda
       (Node (Leaf cc_big) (Node (Leaf cc_one) (Leaf cc_one)))] /\
  Collapse (Map mean_lambda
    [merge combine_lambda
       (Node (Leaf cc_big) (Node (Leaf cc_one) (Leaf cc_one)))]) <>
  recompute_step [cc_big; cc_one; cc_one].
Proof.
  split.
  - exists [0], [Node (Leaf cc_big) (Node (Leaf cc_one) (Leaf cc_one))].
    split; [repeat constructor; simpl; tauto|].
    split; [repeat constructor|].
    split; [|reflexivity].
    intros z [<-|[<-|[<-|[]]]]; left; reflexivity.
  - intros H.
    apply (f_equal (fun cs => match cs with
                              | [[x]] => (x =? 3002399751580331.5)%float
                              | _ => false
                              end)) in H.
    vm_compute in H. discriminate.
Qed.

(** ** The order of the centroids of a model *)



(** ** The theorems on concrete runs *)

Example Classify_tie : Classify tie_model [1; 1]%float = Ret 0.
Proof. reflexivity. Qed.

Example ComputeCost_tie : ComputeCost tie_model [1; 1]%float = Ret 2%float.
Proof. reflexivity. Qed.

(** The spec's end-to-end scenario: centroids (0, 0.5) and (10, 0.5) after
    five passes, total cost 1. *)
Example KMeans_square :
  KMeans Sample_first false 5 square_points 2 2 5 =
    Some (Ret (mkKMeansModel 2 2 5 [[0; 0.5]; [10; 0.5]]%float)) /\
  ComputeCost_DIA (mkKMeansModel 2 2 5 [[0; 0.5]; [10; 0.5]]%float)
    square_points = Ret 1%float.
Proof. split; vm_compute; reflexivity. Qed.

(** A cluster that receives no point vanishes: two centroids requested,
    one left. *)
Example KMeans_line :
  KMeans Sample_first false 1 line_points 1 2 1 =
    Some (Ret (mkKMeansModel 1 2 1
                 [[(4 / 3)%float]])).
Proof. vm_compute. reflexivity. Qed.

(** No centroid at all: [KMeans] with [num_clusters = 0] and
    [iterations = 0] returns a model on which [Classify] is undefined. *)
Example KMeans_no_centroid :
  KMeans Sample_first false 0 line_points 1 0 0 =
    Some (Ret (mkKMeansModel 1 0 0 [])) /\
  Classify (mkKMeansModel 1 0 0 []) [0%float] = Undefined.
Proof. split; reflexivity. Qed.

Lemma Classify_nearest_witness :
  exists r c_r,
    Classify tie_model [1; 1]%float = Ret r /\
    assign_lambda false (centroids tie_model) [1; 1]%float =
      Ret (mkClosestCentroid r (mkCentroidAccumulated [1; 1]%float 1)) /\
    0 <= r /\
    nth_error (centroids tie_model) (Z.to_nat r) = Some c_r /\
    (forall j c, nth_error (centroids tie_model) j = Some c ->
       (DistanceSquare [1; 1]%float c <? DistanceSquare [1; 1]%float c_r)%float
       = false) /\
    (forall j c, nth_error (centroids tie_model) j = Some c ->
       Z.of_nat j < r ->
       (DistanceSquare [1; 1]%float c <=? DistanceSquare [1; 1]%float c_r)%float
       = false) /\
    (forall c0, nth_error (centroids tie_model) 0 = Some c0 ->
       is_nan (DistanceSquare [1; 1]%float c0) = false ->
       forall j c, nth_error (centroids tie_model) j = Some c ->
         is_nan (DistanceSquare [1; 1]%float c) = false ->
         (DistanceSquare [1; 1]%float c_r <=? DistanceSquare [1; 1]%float c)%float
         = true).
Proof.
  apply (Classify_nearest false tie_model [1; 1]%float).
  - discriminate.
  - reflexivity.
Defined.

Lemma Classify_in_range_witness :
  exists r c,
    Classify (mkKMeansModel 1 2 1 [[(4 / 3)%float]]) [4%float] = Ret r /\
    0 <= r < 1 /\
    nth_error [[(4 / 3)%float]] (Z.to_nat r) = Some c /\
    (forall id, 1 <= id < 2 -> r < id).
Proof.
  apply (Classify_in_range (mkKMeansModel 1 2 1 [[(4 / 3)%float]]) [4%float]).
  discriminate.
Defined.

Lemma ComputeCost_minimum_witness :
  (exists r c_r,
    Classify tie_model [1; 1]%float = Ret r /\
    nth_error (centroids tie_model) (Z.to_nat r) = Some c_r /\
    ComputeCost tie_model [1; 1]%float =
      Ret (DistanceSquare [1; 1]%float c_r) /\
    (forall j c, nth_error (centroids tie_model) j = Some c ->
       (DistanceSquare [1; 1]%float c <? DistanceSquare [1; 1]%float c_r)%float
       = false) /\
    (forall c0, nth_error (centroids tie_model) 0 = Some c0 ->
       is_nan (DistanceSquare [1; 1]%float c0) = false ->
       forall j c, nth_error (centroids tie_model) j = Some c ->
         is_nan (DistanceSquare [1; 1]%float c) = false ->
         (DistanceSquare [1; 1]%float c_r <=? DistanceSquare [1; 1]%float c)%float
         = true)) /\
  (exists costs,
    Forall2 (fun q cost => ComputeCost tie_model q = Ret cost)
      square_points costs /\
    ComputeCost_DIA tie_model square_points =
      Ret (fold_left PrimFloat.add costs 0%float)).
Proof.
  apply (ComputeCost_minimum tie_model [1; 1]%float square_points).
  - discriminate.
  - reflexivity.
Defined.


Lemma centroids_never_increase_witness :
  (exists ids,
     NoDup ids /\
     (forall id, In id ids <->
        exists pt, In pt line_points /\
                   assigned_to false [[0]; [0]]%float id pt = true) /\
     length [[(4 / 3)%float]] = length ids) /\
  (1 <= 2)%nat /\
  (forall n s'',
     rounds false n line_points (mkLoopState 1 [[(4 / 3)%float]]) = Ret s'' ->
     (length (cur_centroids s'') <= 1)%nat).
Proof.
  apply (centroids_never_increase false line_points
           (mkLoopState 0 [[0]; [0]]%float)
           (mkLoopState 1 [[(4 / 3)%float]])).
  vm_compute. reflexivity.
Defined.

Lemma KMeans_runs_iterations_witness :
  for_loop false 5 square_points 5
    (mkLoopState 0 (Sample_first square_points 2)) =
    Some (rounds false 5 square_points
            (mkLoopState 0 (Sample_first square_points 2))) /\
  KMeans Sample_first false 5 square_points 2 2 5 =
    Some (s <- rounds false 5 square_points
                 (mkLoopState 0 (Sample_first square_points 2)) ;;
          Ret (mkKMeansModel 2 2 5 (cur_centroids s))) /\
  (forall s, rounds false 5 square_points
               (mkLoopState 0 (Sample_first square_points 2)) = Ret s ->
             iter s = 5 /\ (iter s <? 5) = false).
Proof.
  apply (KMeans_runs_iterations Sample_first false 5 square_points 2 2 5).
  - split; [discriminate | reflexivity].
  - apply le_n.
Defined.


Lemma combine_merge_order_witness :
  let t1 := Node (Node (Leaf cc_big) (Leaf cc_one)) (Leaf cc_one) in
  let t2 := Node (Leaf cc_big) (Node (Leaf cc_one) (Leaf cc_one)) in
  (cluster_id (merge combine_lambda t1) = cluster_id (merge combine_lambda t2) /\
   count (center (merge combine_lambda t1)) =
     count (center (merge combine_lambda t2))) /\
  merge combine_lambda (Node (Leaf cc_big) (Leaf cc_one)) =
    merge combine_lambda (Node (Leaf cc_one) (Leaf cc_big)).
Proof.
  destruct combine_merge_order as (_ & _ & Hperm & Hmirror).
  split.
  - apply (Hperm 0).
    + repeat constructor.
    + apply Permutation_refl.
  - apply (Hmirror 0).
    + repeat constructor.
    + apply mirrored_swap; constructor.
Defined.

(** * Further properties of the header *)

(** ** Classification of whole collections (lines 113-150) *)

Section Collections.

Context {Point : Type} {ops : PointOps Point}.

(** A lambda that returns for every item maps a list to a list of the same
    shape. *)
Lemma mapM_Forall2 {A B : Type} (f : A -> outcome B) (l : list A) :
  forall out, mapM f l = Ret out -> Forall2 (fun a b => f a = Ret b) l out.
Proof.
  induction l as [|a l IH]; intros out H; simpl in H.
  - injection H as <-. constructor.
  - destruct (f a) as [b| |] eqn:Ea; try discriminate. simpl in H.
    destruct (mapM f l) as [bs| |] eqn:El; try discriminate. simpl in H.
    injection H as <-. constructor; [assumption | apply IH; reflexivity].
Qed.

Lemma combine_fst_snd {A B : Type} (l : list A) :
  forall l' : list B, length l = length l' ->
    map fst (List.combine l l') = l /\ map snd (List.combine l l') = l'.
Proof.
  induction l as [|a l IH]; intros [|b l'] H; simpl in *; try discriminate.
  - split; reflexivity.
  - destruct (IH l') as [H1 H2]; [lia|]. rewrite H1, H2. split; reflexivity.
Qed.

(** X1. On a model with centroids, [Classify] of a DIA returns one id per
    point, in the order of the points, each the id [Classify] returns for
    that point and each an index of the centroid vector. *)
Theorem Classify_DIA_ids (m : KMeansModel Point) (points : DIA Point) :
  centroids m <> [] ->
  exists ids,
    Classify_DIA m points = Ret ids /\
    Forall2 (fun pt r => Classify m pt = Ret r /\
                         0 <= r < Z.of_nat (length (centroids m)))
      points ids.
Proof.
  intros Hne.
  assert (Hall : forall pt, exists r,
            Classify m pt = Ret r /\ 0 <= r < Z.of_nat (length (centroids m))).
  { intros pt. destruct (Classify_index_valid m pt Hne) as (r & c & Hc & Hr & _).
    exists r. split; assumption. }
  unfold Classify_DIA.
  induction points as [|pt points (ids & Hids & Hf)].
  - exists []. split; [reflexivity | constructor].
  - destruct (Hall pt) as (r & Hc & Hr).
    exists (r :: ids). split.
    + simpl. rewrite Hc. simpl. rewrite Hids. reflexivity.
    + constructor; [split; assumption | assumption].
Qed.

(** X2. [ClassifyPairs] is [Classify] of the DIA zipped with the points:
    it fails exactly as [Classify] does, and otherwise pairs every point,
    in order, with its id. *)
Theorem ClassifyPairs_zip (m : KMeansModel Point) (points : DIA Point) :
  ClassifyPairs m points =
    (ids <- Classify_DIA m points ;; Ret (List.combine points ids)) /\
  (forall pairs, ClassifyPairs m points = Ret pairs ->
     map fst pairs = points /\ Classify_DIA m points = Ret (map snd pairs)).
Proof.
  assert (Heq : ClassifyPairs m points =
    (ids <- Classify_DIA m points ;; Ret (List.combine points ids))).
  { unfold ClassifyPairs, Classify_DIA.
    induction points as [|pt points IH]; [reflexivity|].
    cbn [mapM]. destruct (Classify m pt) as [r| |]; try reflexivity.
    cbn [bind]. rewrite IH.
    destruct (mapM (Classify m) points) as [ids| |]; reflexivity. }
  split; [exact Heq|].
  intros pairs Hp. rewrite Heq in Hp.
  destruct (Classify_DIA m points) as [ids| |] eqn:Eids; try discriminate.
  simpl in Hp. injection Hp as <-.
  apply mapM_Forall2 in Eids. apply Forall2_length in Eids.
  destruct (combine_fst_snd points ids Eids) as [H1 H2].
  rewrite H1, H2. split; reflexivity.
Qed.

(** X3. On a model without centroids the three DIA operations return the
    empty result (cost 0) for an empty DIA, where the lambda never runs,
    and are undefined as soon as the DIA holds a point. *)
Theorem no_centroids_DIA (m : KMeansModel Point) (points : DIA Point) :
  centroids m = [] ->
  (points = [] ->
     Classify_DIA m points = Ret [] /\
     ClassifyPairs m points = Ret [] /\
     ComputeCost_DIA m points = Ret 0%float) /\
  (points <> [] ->
     Classify_DIA m points = Undefined /\
     ClassifyPairs m points = Undefined /\
     ComputeCost_DIA m points = Undefined).
Proof.
  intros Hc. split.
  - intros ->. repeat split.
  - intros Hne. destruct points as [|pt points]; [congruence|].
    unfold Classify_DIA, ClassifyPairs, ComputeCost_DIA. cbn [mapM].
    unfold Classify, ComputeCost. rewrite Hc. repeat split.
Qed.

(** Nothing is below a NaN: the scan never replaces a NaN minimum. *)
Lemma Classify_loop_nan (pt : Point) rest :
  forall i min_dist closest_id,
    is_nan min_dist = true ->
    Classify_loop pt rest i min_dist closest_id = (min_dist, closest_id).
Proof.
  induction rest as [|c rest IH]; intros i min_dist closest_id Hn; simpl.
  - reflexivity.
  - destruct (DistanceSquare pt c <? min_dist)%float eqn:E.
    + apply Double.ltb_not_nan_r in E. congruence.
    + apply IH. assumption.
Qed.

(** X4. When the distance to centroid 0 is NaN, no later centroid replaces
    it: [Classify] returns id 0 and [ComputeCost] returns that NaN,
    whatever the other centroids are. *)
Theorem nan_first_distance_stays (m : KMeansModel Point) (pt c0 : Point)
    (rest : list Point) :
  centroids m = c0 :: rest ->
  is_nan (DistanceSquare pt c0) = true ->
  Classify m pt = Ret 0 /\
  ComputeCost m pt = Ret (DistanceSquare pt c0).
Proof.
  intros Hc Hn. unfold Classify, ComputeCost. rewrite Hc.
  rewrite (ComputeCost_loop_fst pt rest 1 _ 0).
  rewrite Classify_loop_nan by assumption. split; reflexivity.
Qed.

(** The scan of a vector with one more centroid at its end. *)
Lemma Classify_loop_snoc (pt c : Point) rest :
  forall i min_dist closest_id,
    0 <= i -> i + Z.of_nat (length rest) < SIZE_MOD ->
    Classify_loop pt (rest ++ [c]) i min_dist closest_id =
    let r := Classify_loop pt rest i min_dist closest_id in
    if (DistanceSquare pt c <? fst r)%float
    then (DistanceSquare pt c, i + Z.of_nat (length rest))
    else r.
Proof.
  induction rest as [|x rest IH]; intros i min_dist closest_id Hi Hb.
  - cbn [app Classify_loop length fst]. rewrite Z.add_0_r.
    destruct (DistanceSquare pt c <? min_dist)%float; reflexivity.
  - cbn [app Classify_loop length]. cbn [length] in Hb.
    assert (Hs : size_incr i = i + 1) by (apply size_incr_exact; lia).
    destruct (DistanceSquare pt x <? min_dist)%float;
      rewrite IH by lia; rewrite Hs;
      replace (i + 1 + Z.of_nat (length rest))
        with (i + Z.of_nat (S (length rest))) by lia; reflexivity.
Qed.

(** X5. Appending a centroid [c] to the vector of a model changes the
    result for a point only if [c] is strictly closer than the old cost:
    then the point moves to the new last index and its cost becomes the
    distance to [c]; otherwise id and cost stay. *)
Theorem Classify_append (m : KMeansModel Point) (pt c : Point) :
  centroids m <> [] ->
  Z.of_nat (length (centroids m ++ [c])) < SIZE_MOD ->
  let m' := mkKMeansModel (dimensions m) (num_clusters m) (iterations m)
              (centroids m ++ [c]) in
  exists r cost,
    Classify m pt = Ret r /\ ComputeCost m pt = Ret cost /\
    Classify m' pt =
      Ret (if (DistanceSquare pt c <? cost)%float
           then Z.of_nat (length (centroids m)) else r) /\
    ComputeCost m' pt =
      Ret (if (DistanceSquare pt c <? cost)%float
           then DistanceSquare pt c else cost).
Proof.
  intros Hne Hlen m'. unfold Classify, ComputeCost. cbn [centroids m'].
  destruct (centroids m) as [|c0 rest]; [congruence|].
  rewrite length_app in Hlen. cbn [length] in Hlen.
  cbn [app].
  rewrite !(ComputeCost_loop_fst pt _ 1 _ 0).
  rewrite Classify_loop_snoc by lia.
  set (res := Classify_loop pt rest 1 (DistanceSquare pt c0) 0).
  exists (snd res), (fst res). cbv zeta.
  destruct (DistanceSquare pt c <? fst res)%float; cbn [fst snd length];
    repeat split; do 2 f_equal; lia.
Qed.

End Collections.

(** ** The records of a pass (lines 190-219) *)

Section Counts.

Context {Point : Type} {ops : PointOps Point}.

Variable NDEBUG : bool.

Lemma sum_map_add {A : Type} (f g : A -> Z) (l : list A) :
  fold_right Z.add 0 (map (fun a => f a + g a) l) =
  fold_right Z.add 0 (map f l) + fold_right Z.add 0 (map g l).
Proof.
  induction l as [|a l IH]; simpl; [reflexivity | rewrite IH; lia].
Qed.

(** Among distinct ids, [a] occurs once if at all. *)
Lemma indicator_sum (a : Z) (ks : list Z) :
  NoDup ks ->
  fold_right Z.add 0 (map (fun id => if a =? id then 1 else 0) ks) =
  if existsb (Z.eqb a) ks then 1 else 0.
Proof.
  induction 1 as [|k ks Hk Hnd IH]; simpl; [reflexivity|].
  rewrite IH. destruct (a =? k) eqn:E; simpl; [|reflexivity].
  apply Z.eqb_eq in E. subst k.
  destruct (existsb (Z.eqb a) ks) eqn:Ex; [|reflexivity].
  apply existsb_exists in Ex as (x & Hx & Hax). apply Z.eqb_eq in Hax.
  subst x. contradiction.
Qed.

(** The groups of distinct keys that cover a list partition it. *)
Lemma group_sizes_sum {A : Type} (kf : A -> Z) (ks : list Z) (l : list A) :
  NoDup ks -> (forall a, In a l -> In (kf a) ks) ->
  fold_right Z.add 0
    (map (fun id => Z.of_nat (length (filter (fun a => kf a =? id) l))) ks) =
  Z.of_nat (length l).
Proof.
  intros Hnd. induction l as [|a l IH]; intros Hcov.
  - simpl. clear Hnd Hcov.
    induction ks as [|k ks IHk]; simpl; [reflexivity | exact IHk].
  - rewrite (map_ext _
      (fun id => (if kf a =? id then 1 else 0) +
                 Z.of_nat (length (filter (fun a0 => kf a0 =? id) l)))).
    + rewrite sum_map_add, IH, (indicator_sum _ _ Hnd).
      * assert (Hex : existsb (Z.eqb (kf a)) ks = true).
        { apply existsb_exists. exists (kf a). split.
          - apply Hcov. left. reflexivity.
          - apply Z.eqb_refl. }
        rewrite Hex. cbn [length]. lia.
      * intros b Hb. apply Hcov. right. assumption.
    + intros id. cbn [filter].
      destruct (kf a =? id); cbn [length]; lia.
Qed.

(** The records an assignment step returns are the lambda's records of the
    points, in order. *)
Lemma assign_step_shape (cs : list Point) (points : DIA Point) closest :
  assign_step NDEBUG points cs = Ret closest ->
  exists k : Point -> size_t,
    closest =
    map (fun pt => mkClosestCentroid (k pt) (mkCentroidAccumulated pt 1))
      points.
Proof.
  intros H. destruct cs as [|c0 rest].
  - destruct points as [|pt points].
    + simpl in H. injection H as <-. exists (fun _ => 0). reflexivity.
    + unfold assign_step, Keep in H. simpl in H. destruct NDEBUG; discriminate.
  - destruct (assign_step_spec NDEBUG (c0 :: rest) points ltac:(discriminate))
      as (k & _ & Hk).
    rewrite Hk in H. injection H as <-. exists k. reflexivity.
Qed.

(** X6. After [ReduceByKey] every point is counted once: each merged
    record has a count between 1 and the number of points, so the mean
    never divides by 0, and the counts add up to the number of points. *)
Theorem counts_partition_points (cs : list Point) (points : DIA Point)
    (closest : DIA (ClosestCentroid Point)) :
  assign_step NDEBUG points cs = Ret closest ->
  Z.of_nat (length points) < SIZE_MOD ->
  Forall (fun cc => 1 <= count (center cc) <= Z.of_nat (length points))
    (ReduceByKey key_lambda combine_lambda closest) /\
  fold_right Z.add 0
    (map (fun cc => count (center cc))
       (ReduceByKey key_lambda combine_lambda closest)) =
  Z.of_nat (length points).
Proof.
  intros Hstep Hlen.
  destruct (assign_step_shape cs points closest Hstep) as (k & ->).
  set (h := fun pt => mkClosestCentroid (k pt) (mkCentroidAccumulated pt 1)).
  destruct (ReduceByKey_table _ key_lambda combine_lambda key_combine
              (map h points)) as (Hnd & Hall & Hcov).
  set (reduced := ReduceByKey key_lambda combine_lambda (map h points)) in *.
  assert (Hcount : forall y, In y reduced ->
    count (center y) =
      Z.of_nat (length (filter (fun pt => k pt =? key_lambda y) points)) /\
    (1 <= length (filter (fun pt => (k pt =? key_lambda y)%Z) points))%nat).
  { rewrite Forall_forall in Hall. intros y Hy.
    destruct (Hall y Hy) as (x0 & g & Hfg & He).
    rewrite filter_map_swap in Hfg.
    apply map_eq_cons in Hfg as (pt0 & g' & Hf & Hx0 & Hg).
    change (filter (fun pt => k pt =? key_lambda y) points = pt0 :: g') in Hf.
    rewrite Hf. split; [|cbn [length]; lia].
    assert (Hsub : (length (pt0 :: g') <= length points)%nat).
    { rewrite <- Hf. apply filter_length_le. }
    subst x0 g y. subst h. cbv beta. rewrite fold_combine_seeded.
    cbn [center count].
    rewrite fold_count by (unfold SIZE_MOD; lia).
    cbn [length] in *. rewrite Z.mod_small; lia. }
  split.
  - apply Forall_forall. intros y Hy. destruct (Hcount y Hy) as [-> H1].
    pose proof (filter_length_le (fun pt => k pt =? key_lambda y) points).
    lia.
  - rewrite (map_ext_in _
      (fun y => Z.of_nat
                  (length (filter (fun pt => k pt =? key_lambda y) points))))
      by (intros y Hy; apply (Hcount y Hy)).
    rewrite <- (map_map key_lambda
      (fun id => Z.of_nat (length (filter (fun pt => k pt =? id) points)))).
    apply group_sizes_sum; [assumption|].
    intros pt Hpt. apply (Hcov (h pt)). apply in_map. assumption.
Qed.

(** A pass over at least one point keeps at least one centroid. *)
Lemma loop_body_nonempty (points : DIA Point) (s : loop_state Point) :
  points <> [] -> cur_centroids s <> [] ->
  exists s', loop_body NDEBUG points s = Ret s' /\ cur_centroids s' <> [].
Proof.
  intros Hp Hc.
  destruct (assign_step_spec NDEBUG (cur_centroids s) points Hc)
    as (k & Hk & Hstep).
  assert (Hb : loop_body NDEBUG points s =
    Ret (mkLoopState (size_incr (iter s))
           (recompute_step
              (map (fun pt => mkClosestCentroid (k pt)
                                (mkCentroidAccumulated pt 1)) points)))).
  { unfold loop_body, AllGather. rewrite Hstep. reflexivity. }
  eexists. split; [exact Hb|].
  destruct (loop_body_centroids NDEBUG points s _ Hb)
    as (ids & _ & Hiff & Hlen & _).
  destruct points as [|pt points]; [congruence|].
  assert (Hin : In (k pt) ids).
  { apply Hiff. exists pt. split; [left; reflexivity|].
    rewrite (assigned_to_key NDEBUG _ k Hk). apply Z.eqb_refl. }
  intros Hnil. rewrite Hnil in Hlen. destruct ids; [contradiction|].
  discriminate.
Qed.

Lemma rounds_nonempty (points : DIA Point) (n : nat) :
  forall s : loop_state Point,
    points <> [] -> cur_centroids s <> [] ->
    exists s', rounds NDEBUG n points s = Ret s' /\ cur_centroids s' <> [].
Proof.
  induction n as [|n IH]; intros s Hp Hc; simpl.
  - exists s. split; [reflexivity | assumption].
  - destruct (loop_body_nonempty points s Hp Hc) as (t & Ht & Hct).
    rewrite Ht. simpl. apply IH; assumption.
Qed.

(** The assert of the lambda changes nothing where a pass returns. *)
Lemma loop_body_release (points : DIA Point) (s s' : loop_state Point) b b' :
  loop_body b points s = Ret s' -> loop_body b' points s = Ret s'.
Proof.
  unfold loop_body, AllGather, assign_step, Keep.
  destruct (cur_centroids s) as [|c0 rest].
  - destruct points as [|pt points]; [trivial|].
    simpl. destruct b; discriminate.
  - intros H. rewrite <- H. reflexivity.
Qed.

End Counts.

(** ** Whole runs of [KMeans] (lines 171-229) *)

Section Runs.

Context {Point : Type} {ops : PointOps Point}.

Variable Sample : DIA Point -> size_t -> DIA Point.
Variable NDEBUG : bool.

(** X7. When neither the input nor the initial sample is empty, [KMeans]
    returns a model for every iteration count: no pass loses the last
    centroid, so the assert never fires, the model has between one
    centroid and as many as sampled, and [Classify] and [ComputeCost]
    return on it for every point. *)
Theorem KMeans_returns_usable_model (fuel : nat) (input_points : DIA Point)
    (d k it : size_t) :
  0 <= it < SIZE_MOD ->
  (Z.to_nat it <= fuel)%nat ->
  input_points <> [] ->
  Sample input_points k <> [] ->
  exists m,
    KMeans Sample NDEBUG fuel input_points d k it = Some (Ret m) /\
    centroids m <> [] /\
    (length (centroids m) <= length (Sample input_points k))%nat /\
    (forall pt, exists r cost,
       Classify m pt = Ret r /\
       0 <= r < Z.of_nat (length (centroids m)) /\
       ComputeCost m pt = Ret cost).
Proof.
  intros Hit Hf Hp Hs.
  set (s0 := mkLoopState 0 (Sample input_points k)).
  destruct (rounds_nonempty NDEBUG input_points (Z.to_nat it) s0 Hp Hs)
    as (s & Hr & Hc).
  assert (Hloop : for_loop NDEBUG fuel input_points it s0 = Some (Ret s)).
  { rewrite <- Hr. apply for_loop_rounds; cbn [iter s0]; lia. }
  exists (mkKMeansModel d k it (cur_centroids s)). split; [|split; [|split]].
  - unfold KMeans, Cache, Keep, AllGather. fold s0. rewrite Hloop. reflexivity.
  - exact Hc.
  - apply (rounds_centroids NDEBUG input_points _ _ _ Hr).
  - intros pt.
    destruct (Classify_index_valid (mkKMeansModel d k it (cur_centroids s)) pt Hc)
      as (r & c & Hcl & Hrange & _).
    exists r. unfold ComputeCost. cbn [centroids] in *.
    destruct (cur_centroids s) as [|c0 rest]; [congruence|].
    eexists. repeat split; try eassumption; lia.
Qed.

(** X8. When the initial sample is empty but the input is not, the first
    pass stops the run for every positive iteration count: with asserts
    the assert of the lambda fails, without them [local_centroids[0]] is
    read unchecked. *)
Theorem KMeans_no_sample_fails (fuel : nat) (input_points : DIA Point)
    (d k it : size_t) :
  0 < it ->
  (1 <= fuel)%nat ->
  input_points <> [] ->
  Sample input_points k = [] ->
  KMeans Sample NDEBUG fuel input_points d k it =
    Some (if NDEBUG then Undefined else AssertionFailed).
Proof.
  intros Hit Hf Hp Hs. unfold KMeans, Cache, Keep, AllGather. rewrite Hs.
  destruct fuel as [|fuel]; [lia|].
  destruct input_points as [|pt points]; [congruence|].
  cbn [for_loop iter].
  assert (Hg : (0 <? it) = true) by (apply Z.ltb_lt; exact Hit).
  rewrite Hg. unfold loop_body, AllGather, assign_step, Keep.
  cbn [cur_centroids mapM assign_lambda].
  destruct NDEBUG; reflexivity.
Qed.

Lemma rounds_no_points (n : nat) :
  forall s : loop_state Point,
    exists s', rounds NDEBUG (S n) [] s = Ret s' /\ cur_centroids s' = [].
Proof.
  induction n as [|n IH]; intros s.
  - eexists. split; reflexivity.
  - change (rounds NDEBUG (S (S n)) [] s)
      with (rounds NDEBUG (S n) []
              (mkLoopState (size_incr (iter s)) (recompute_step []))).
    apply IH.
Qed.

(** X9. On an empty input every run of at least one iteration returns a
    model without centroids, whatever [Sample] drew: the first pass
    assigns no point, so no centroid is recomputed. *)
Theorem KMeans_no_points (fuel : nat) (d k it : size_t) :
  0 < it < SIZE_MOD ->
  (Z.to_nat it <= fuel)%nat ->
  KMeans Sample NDEBUG fuel [] d k it = Some (Ret (mkKMeansModel d k it [])).
Proof.
  intros Hit Hf. unfold KMeans, Cache, Keep, AllGather.
  rewrite (for_loop_rounds NDEBUG [] it (Z.to_nat it)); cbn [iter]; try lia.
  destruct (Z.to_nat it) as [|n] eqn:En; [lia|].
  destruct (rounds_no_points n (mkLoopState 0 (Sample [] k))) as (s & -> & Hc).
  simpl. rewrite Hc. reflexivity.
Qed.

Lemma rounds_app (points : DIA Point) (a b : nat) :
  forall s : loop_state Point,
    rounds NDEBUG (a + b) points s =
    (s' <- rounds NDEBUG a points s ;; rounds NDEBUG b points s').
Proof.
  induction a as [|a IH]; intros s; simpl.
  - reflexivity.
  - destruct (loop_body NDEBUG points s) as [t| |]; simpl; try reflexivity.
    apply IH.
Qed.

(** X10. The loop keeps no state but [iter] and the centroids: the state
    the loop ends in for [it1] iterations, run on to [it2 >= it1], gives
    what the loop gives for [it2] iterations from the start. *)
Theorem for_loop_resume (fuel : nat) (points : DIA Point) (it1 it2 : size_t)
    (centroids0 : DIA Point) (s1 : loop_state Point) :
  0 <= it1 <= it2 -> it2 < SIZE_MOD ->
  (Z.to_nat it2 <= fuel)%nat ->
  for_loop NDEBUG fuel points it1 (mkLoopState 0 centroids0) = Some (Ret s1) ->
  for_loop NDEBUG fuel points it2 s1 =
  for_loop NDEBUG fuel points it2 (mkLoopState 0 centroids0).
Proof.
  intros H12 Hb Hf H1.
  set (s0 := mkLoopState 0 centroids0) in *.
  rewrite (for_loop_rounds NDEBUG points it1 (Z.to_nat it1)) in H1;
    cbn [iter s0]; try lia.
  injection H1 as H1.
  assert (Hi : iter s1 = it1).
  { rewrite (rounds_iter NDEBUG points (Z.to_nat it1) s0 s1);
      cbn [iter s0]; try assumption; lia. }
  rewrite (for_loop_rounds NDEBUG points it2 (Z.to_nat (it2 - it1)) fuel s1);
    try lia.
  rewrite (for_loop_rounds NDEBUG points it2 (Z.to_nat it2) fuel s0);
    cbn [iter s0]; try lia.
  replace (Z.to_nat it2) with (Z.to_nat it1 + Z.to_nat (it2 - it1))%nat by lia.
  rewrite rounds_app, H1. reflexivity.
Qed.

End Runs.

Section Release.

Context {Point : Type} {ops : PointOps Point}.

Variable Sample : DIA Point -> size_t -> DIA Point.

Lemma for_loop_release (points : DIA Point) (it : size_t) (b b' : bool)
    (fuel : nat) :
  forall s s' : loop_state Point,
    for_loop b fuel points it s = Some (Ret s') ->
    for_loop b' fuel points it s = Some (Ret s').
Proof.
  induction fuel as [|fuel IH]; intros s s' H; simpl in *.
  - exact H.
  - destruct (iter s <? it); [|exact H].
    destruct (loop_body b points s) as [t| |] eqn:Eb; try discriminate.
    rewrite (loop_body_release points s t b b' Eb). apply IH. exact H.
Qed.

(** X11. A run that returns a model returns the same model with asserts
    compiled in or out: the assert of the lambda has no effect on a run
    that does not stop at it. *)
Theorem KMeans_release_agrees (b b' : bool) (fuel : nat)
    (input_points : DIA Point) (d k it : size_t) (m : KMeansModel Point) :
  KMeans Sample b fuel input_points d k it = Some (Ret m) ->
  KMeans Sample b' fuel input_points d k it = Some (Ret m).
Proof.
  unfold KMeans, Cache, Keep, AllGather. intros H.
  destruct (for_loop b fuel input_points it
              (mkLoopState 0 (Sample input_points k))) as [[s| |]|] eqn:El;
    try discriminate.
  rewrite (for_loop_release _ _ b b' _ _ _ El). exact H.
Qed.

End Release.

(** ** The dimension of the centroids *)

Lemma vec_zip_with_length (f : float -> float -> float) (D : nat) :
  forall a b : VPoint,
    length a = D -> length b = D -> length (vec_zip_with f a b) = D.
Proof.
  induction D as [|D IH]; intros [|x a] [|y b] Ha Hb; simpl in *;
    try discriminate; try reflexivity.
  f_equal. apply IH; lia.
Qed.

Lemma merge_dimension (D : nat) (t : merge_tree (ClosestCentroid VPoint)) :
  Forall (fun cc => length (p (center cc)) = D) (leaves t) ->
  length (p (center (merge combine_lambda t))) = D.
Proof.
  induction t as [x|l IHl r IHr]; simpl; intros H.
  - inversion H. assumption.
  - apply Forall_app in H as [Hl Hr].
    apply vec_zip_with_length; [apply IHl | apply IHr]; assumption.
Qed.

(** After a pass every centroid has the dimension of the points. *)
Lemma loop_body_dimension (NDEBUG : bool) (D : nat) (points : DIA VPoint)
    (s s' : loop_state VPoint) :
  Forall (fun pt => length pt = D) points ->
  loop_body NDEBUG points s = Ret s' ->
  Forall (fun c => length c = D) (cur_centroids s').
Proof.
  intros Hd Hb. unfold loop_body, AllGather in Hb.
  destruct (assign_step NDEBUG points (cur_centroids s)) as [closest| |] eqn:Ea;
    try discriminate.
  simpl in Hb. injection Hb as <-. cbn [cur_centroids].
  destruct (assign_step_shape NDEBUG _ _ _ Ea) as (k & ->).
  unfold recompute_step, Collapse, Map.
  apply Forall_forall. intros c Hc.
  apply in_map_iff in Hc as (y & <- & Hy).
  apply (ReduceByKey_merge _ key_lambda combine_lambda key_combine) in Hy
    as (t & Hl & <-).
  unfold mean_lambda. simpl. unfold VPoint_div. rewrite length_map.
  apply merge_dimension. rewrite Hl.
  apply Forall_forall. intros cc Hcc.
  apply filter_In in Hcc as [Hcc _].
  apply in_map_iff in Hcc as (pt & <- & Hpt). cbn [center p].
  rewrite Forall_forall in Hd. apply Hd. assumption.
Qed.

Lemma for_loop_dimension (NDEBUG : bool) (D : nat) (points : DIA VPoint)
    (it : size_t) (fuel : nat) :
  Forall (fun pt => length pt = D) points ->
  forall s s' : loop_state VPoint,
    for_loop NDEBUG fuel points it s = Some (Ret s') ->
    (iter s <? it) = true \/ Forall (fun c => length c = D) (cur_centroids s) ->
    Forall (fun c => length c = D) (cur_centroids s').
Proof.
  intros Hd. induction fuel as [|fuel IH]; intros s s' H Hs; simpl in H.
  - destruct (iter s <? it); try discriminate.
    injection H as <-. destruct Hs; [discriminate | assumption].
  - destruct (iter s <? it).
    + destruct (loop_body NDEBUG points s) as [t| |] eqn:Eb; try discriminate.
      apply (IH t s' H). right.
      apply (loop_body_dimension NDEBUG D points s t Hd Eb).
    + injection H as <-. destruct Hs; [discriminate | assumption].
Qed.

(** X12. With [double] coordinates, after at least one iteration every
    centroid of the model [KMeans] returns has the dimension the input
    points share, whatever the dimension of the sampled centroids. *)
Theorem KMeans_centroid_dimension
    (Sample : DIA VPoint -> size_t -> DIA VPoint) (NDEBUG : bool)
    (fuel : nat) (input_points : DIA VPoint) (d k it : size_t)
    (m : KMeansModel VPoint) (D : nat) :
  0 < it ->
  Forall (fun pt => length pt = D) input_points ->
  KMeans Sample NDEBUG fuel input_points d k it = Some (Ret m) ->
  Forall (fun c => length c = D) (centroids m).
Proof.
  intros Hit Hd. unfold KMeans, Cache, Keep, AllGather. intros H.
  destruct (for_loop NDEBUG fuel input_points it
              (mkLoopState 0 (Sample input_points k))) as [[s| |]|] eqn:El;
    try discriminate.
  simpl in H. injection H as <-. cbn [centroids].
  apply (for_loop_dimension NDEBUG D input_points it fuel Hd _ _ El).
  left. cbn [iter]. apply Z.ltb_lt. exact Hit.
Qed.

(** ** A single centroid *)

Section Single.

Context {Point : Type} {ops : PointOps Point}.

Variable NDEBUG : bool.

Lemma filter_all {A : Type} (f : A -> bool) (l : list A) :
  (forall a, f a = true) -> filter f l = l.
Proof.
  intros H. induction l as [|a l IH]; simpl; [reflexivity|].
  rewrite H, IH. reflexivity.
Qed.

(** When every point has cluster id 0, any order of the engine leaves one
    centroid: the sum of all points divided by their number. *)
Lemma one_cluster_mean (points : DIA Point)
    (reduced : DIA (ClosestCentroid Point)) :
  points <> [] ->
  Z.of_nat (length points) < SIZE_MOD ->
  reduces_by_key key_lambda combine_lambda
    (map (fun pt => mkClosestCentroid 0 (mkCentroidAccumulated pt 1)) points)
    reduced ->
  exists c, Collapse (Map mean_lambda reduced) = [c] /\ is_mean_of points c.
Proof.
  intros Hp Hlen Hred.
  destruct (admissible_means (fun _ : Point => 0) points reduced Hlen Hred)
    as (ids & Hnd & Hiff & Hmean).
  assert (Hids : ids = [0]).
  { destruct points as [|pt points]; [congruence|].
    assert (H0 : In 0 ids).
    { apply Hiff. exists pt. split; [left|]; reflexivity. }
    assert (Hall : forall id, In id ids -> id = 0).
    { intros id Hid. apply Hiff in Hid as (q & _ & <-). reflexivity. }
    destruct ids as [|a [|b ids]].
    - contradiction.
    - rewrite (Hall a) by (left; reflexivity). reflexivity.
    - exfalso. inversion Hnd as [|x l Hx _]. apply Hx.
      rewrite (Hall a), (Hall b) by (simpl; tauto). left. reflexivity. }
  rewrite Hids in Hmean.
  inversion Hmean as [|id c ids' cs' Hm Hrest E1 E2].
  inversion Hrest. subst.
  exists c. split; [reflexivity|].
  rewrite (filter_all (fun _ : Point => 0 =? 0) points) in Hm
    by (intros pt; reflexivity).
  exact Hm.
Qed.

(** X13. With a single centroid every point goes to cluster 0, and a pass
    over a non-empty input leaves a single centroid again, in the pass
    modelled here and in every order the engine may take: the sum of all
    input points divided by their number. *)
Theorem single_centroid_pass (points : DIA Point) (s : loop_state Point)
    (c0 : Point) :
  cur_centroids s = [c0] ->
  points <> [] ->
  Z.of_nat (length points) < SIZE_MOD ->
  (forall pt, assign_lambda NDEBUG (cur_centroids s) pt =
              Ret (mkClosestCentroid 0 (mkCentroidAccumulated pt 1))) /\
  (exists c,
     loop_body NDEBUG points s = Ret (mkLoopState (size_incr (iter s)) [c]) /\
     is_mean_of points c) /\
  (forall reduced,
     reduces_by_key key_lambda combine_lambda
       (map (fun pt => mkClosestCentroid 0 (mkCentroidAccumulated pt 1))
          points)
       reduced ->
     exists c,
       Collapse (Map mean_lambda reduced) = [c] /\ is_mean_of points c).
Proof.
  intros Hc Hp Hlen. rewrite Hc. split; [intros pt; reflexivity|]. split.
  - assert (Hbody : loop_body NDEBUG points s =
      Ret (mkLoopState (size_incr (iter s))
             (recompute_step
                (map (fun pt => mkClosestCentroid 0 (mkCentroidAccumulated pt 1))
                   points)))).
    { unfold loop_body, AllGather, assign_step, Keep. rewrite Hc.
      rewrite (mapM_Ret _
        (fun pt => mkClosestCentroid 0 (mkCentroidAccumulated pt 1)))
        by (intros pt _; reflexivity).
      reflexivity. }
    destruct (one_cluster_mean points _ Hp Hlen
                (ReduceByKey_admissible _ key_lambda combine_lambda
                   key_combine _)) as (c & Hone & Hmean).
    exists c. split; [|exact Hmean].
    rewrite Hbody. unfold recompute_step. rewrite Hone. reflexivity.
  - intros reduced Hred. apply (one_cluster_mean points reduced Hp Hlen Hred).
Qed.

End Single.

(** ** The further properties on concrete runs *)

Lemma Classify_DIA_ids_witness :
  exists ids,
    Classify_DIA tie_model square_points = Ret ids /\
    Forall2 (fun pt r => Classify tie_model pt = Ret r /\
                         0 <= r < Z.of_nat (length (centroids tie_model)))
      square_points ids.
Proof.
  apply (Classify_DIA_ids tie_model square_points). discriminate.
Defined.

Lemma ClassifyPairs_zip_witness :
  map fst [([1; 1]%float, 0)] = [[1; 1]%float] /\
  Classify_DIA tie_model [[1; 1]%float] = Ret (map snd [([1; 1]%float, 0)]).
Proof.
  apply (proj2 (ClassifyPairs_zip tie_model [[1; 1]%float])). reflexivity.
Defined.

Lemma no_centroids_DIA_witness :
  (line_points = [] ->
     Classify_DIA (mkKMeansModel 1 0 0 []) line_points = Ret [] /\
     ClassifyPairs (mkKMeansModel 1 0 0 []) line_points = Ret [] /\
     ComputeCost_DIA (mkKMeansModel 1 0 0 []) line_points = Ret 0%float) /\
  (line_points <> [] ->
     Classify_DIA (mkKMeansModel 1 0 0 []) line_points = Undefined /\
     ClassifyPairs (mkKMeansModel 1 0 0 []) line_points = Undefined /\
     ComputeCost_DIA (mkKMeansModel 1 0 0 []) line_points = Undefined).
Proof.
  apply (no_centroids_DIA (mkKMeansModel 1 0 0 []) line_points). reflexivity.
Defined.

Lemma nan_first_distance_stays_witness :
  Classify (mkKMeansModel 1 2 0 [[nan]; [0%float]]) [0%float] = Ret 0 /\
  ComputeCost (mkKMeansModel 1 2 0 [[nan]; [0%float]]) [0%float] =
    Ret (DistanceSquare [0%float] [nan]).
Proof.
  apply (nan_first_distance_stays
           (mkKMeansModel 1 2 0 [[nan]; [0%float]]) [0%float] [nan] [[0%float]]).
  - reflexivity.
  - reflexivity.
Defined.

Lemma Classify_append_witness :
  let m' := mkKMeansModel 2 2 0 (centroids tie_model ++ [[1; 0]%float]) in
  exists r cost,
    Classify tie_model [1; 1]%float = Ret r /\
    ComputeCost tie_model [1; 1]%float = Ret cost /\
    Classify m' [1; 1]%float =
      Ret (if (DistanceSquare [1; 1]%float [1; 0]%float <? cost)%float
           then Z.of_nat (length (centroids tie_model)) else r) /\
    ComputeCost m' [1; 1]%float =
      Ret (if (DistanceSquare [1; 1]%float [1; 0]%float <? cost)%float
           then DistanceSquare [1; 1]%float [1; 0]%float else cost).
Proof.
  apply (Classify_append tie_model [1; 1]%float [1; 0]%float).
  - discriminate.
  - reflexivity.
Defined.

Lemma counts_partition_points_witness :
  let closest :=
    map (fun pt => mkClosestCentroid 0 (mkCentroidAccumulated pt 1))
      line_points in
  Forall (fun cc => 1 <= count (center cc) <= Z.of_nat (length line_points))
    (ReduceByKey key_lambda combine_lambda closest) /\
  fold_right Z.add 0
    (map (fun cc => count (center cc))
       (ReduceByKey key_lambda combine_lambda closest)) =
  Z.of_nat (length line_points).
Proof.
  apply (counts_partition_points false [[0]; [0]]%float line_points).
  - reflexivity.
  - reflexivity.
Defined.

Lemma KMeans_returns_usable_model_witness :
  exists m,
    KMeans Sample_first false 5 square_points 2 2 5 = Some (Ret m) /\
    centroids m <> [] /\
    (length (centroids m) <= length (Sample_first square_points 2%Z))%nat /\
    (forall pt, exists r cost,
       Classify m pt = Ret r /\
       0 <= r < Z.of_nat (length (centroids m)) /\
       ComputeCost m pt = Ret cost).
Proof.
  apply (KMeans_returns_usable_model Sample_first false 5 square_points 2 2 5).
  - split; [discriminate | reflexivity].
  - apply le_n.
  - discriminate.
  - discriminate.
Defined.

Lemma KMeans_no_sample_fails_witness :
  KMeans Sample_first false 3 line_points 1 0 3 = Some AssertionFailed.
Proof.
  apply (KMeans_no_sample_fails Sample_first false 3 line_points 1 0 3).
  - reflexivity.
  - apply le_S, le_S, le_n.
  - discriminate.
  - reflexivity.
Defined.

Lemma KMeans_no_points_witness :
  KMeans Sample_first false 1 [] 1 2 1 = Some (Ret (mkKMeansModel 1 2 1 [])).
Proof.
  apply (KMeans_no_points Sample_first false 1 1 2 1).
  - split; reflexivity.
  - apply le_n.
Defined.

Lemma for_loop_resume_witness :
  exists s1,
    for_loop false 5 square_points 2
      (mkLoopState 0 (Sample_first square_points 2)) = Some (Ret s1) /\
    for_loop false 5 square_points 5 s1 =
    for_loop false 5 square_points 5
      (mkLoopState 0 (Sample_first square_points 2)).
Proof.
  eexists. split.
  - vm_compute. reflexivity.
  - apply (for_loop_resume false 5 square_points 2 5).
    + split; discriminate.
    + reflexivity.
    + apply le_n.
    + vm_compute. reflexivity.
Defined.

Lemma KMeans_release_agrees_witness :
  KMeans Sample_first true 5 square_points 2 2 5 =
    Some (Ret (mkKMeansModel 2 2 5 [[0; 0.5]; [10; 0.5]]%float)).
Proof.
  apply (KMeans_release_agrees Sample_first false true).
  vm_compute. reflexivity.
Defined.

Lemma KMeans_centroid_dimension_witness :
  Forall (fun c : VPoint => length c = 1%nat) [[(4 / 3)%float]].
Proof.
  apply (KMeans_centroid_dimension Sample_first false 1 line_points 1 2 1
           (mkKMeansModel 1 2 1 [[(4 / 3)%float]]) 1).
  - reflexivity.
  - repeat constructor.
  - vm_compute. reflexivity.
Defined.

Lemma single_centroid_pass_witness :
  let s := mkLoopState 0 [[1%float]] in
  (forall pt, assign_lambda false (cur_centroids s) pt =
              Ret (mkClosestCentroid 0 (mkCentroidAccumulated pt 1))) /\
  (exists c,
     loop_body false line_points s =
       Ret (mkLoopState (size_incr (iter s)) [c]) /\
     is_mean_of line_points c) /\
  (forall reduced,
     reduces_by_key key_lambda combine_lambda
       (map (fun pt => mkClosestCentroid 0 (mkCentroidAccumulated pt 1))
          line_points)
       reduced ->
     exists c,
       Collapse (Map mean_lambda reduced) = [c] /\ is_mean_of line_points c).
Proof.
  apply (single_centroid_pass false line_points
           (mkLoopState 0 [[1%float]]) [1%float]).
  - reflexivity.
  - discriminate.
  - reflexivity.
Defined.
